(** * fprime.fbuild.target: build-target registry and dispatch

    A shallow embedding of [src/fprime/fbuild/target.py].

    Python objects are modelled by a store ([objects]): an object is the
    record of its attributes, its reference is its index in the store, and an
    attribute assignment updates the store in place, so that two references to
    one object see each other's writes.  The class attribute
    [Target.ALL_TARGETS] is a list of references.  Exceptions are modelled by
    the [Raise] constructor of [result].

    Sets of flags are values ([gset string]): no code of the module updates
    one in place.  The classes are the three concrete subclasses of [Target]
    the module defines; the builder is a parameter, a function on a state of
    its own. *)

From stdpp Require Import base strings list gmap sets.


(** ** Data model *)

(** [class TargetScope(Enum)] *)
Inductive TargetScope : Set := GLOBAL | LOCAL | BOTH.

Global Instance TargetScope_eq_dec : EqDecision TargetScope.
Proof. solve_decision. Defined.

(** The values of the enumeration members: [BOTH = GLOBAL | LOCAL]. *)
Definition TargetScope_value (s : TargetScope) : Z :=
  match s with
  | GLOBAL => 1
  | LOCAL => 2
  | BOTH => Z.lor 1 2
  end.

(** Modelled from the spec: the enumeration [BuildType] is imported from
    [fprime.fbuild.types], whose source is not available; the spec describes it
    as the build configuration class of a target, normal or testing. *)
Inductive BuildType : Set := BUILD_NORMAL | BUILD_TESTING.

Global Instance BuildType_eq_dec : EqDecision BuildType.
Proof. solve_decision. Defined.

(** Exceptions.  [NoSuchTargetException] is imported from
    [fprime.fbuild.types]; [AssertionError] is what a failed [assert] raises;
    [BuilderException] stands for whatever the external builder raises. *)
Inductive exn : Set :=
  | NoSuchTargetException (msg : string)
  | AssertionError (msg : string)
  | BuilderException (msg : string).

Inductive result (A : Type) : Type :=
  | Return (a : A)
  | Raise (e : exn).
Arguments Return {A} a.
Arguments Raise {A} e.

(** References to objects: indices in the store. *)
Abbreviation addr := nat (only parsing).

(** The three concrete subclasses of [Target], with the attribute each adds. *)
Inductive TargetKind : Set :=
  | CompositeTarget (targets : list addr)
  | BuildSystemTarget (build_target : string)
  | DelegatorTarget (delegate : addr).

(** The attributes set by [Target.__init__]. *)
Record Target : Set := mkTarget {
  mnemonic : string;
  desc : string;
  build_type : BuildType;
  flags : gset string;
  scope : TargetScope;
  kind : TargetKind
}.

(** The store of objects and the class attribute [Target.ALL_TARGETS]. *)
Record State : Set := mkState {
  objects : list Target;
  ALL_TARGETS : list addr
}.

(** The state of a fresh process: no target was constructed. *)
Definition initial : State := {| objects := []; ALL_TARGETS := [] |}.

(** ** Construction and registration *)

(** Allocation of a new object: its reference is the next free index. *)
Definition new_object (t : Target) (st : State) : addr * State :=
  (length (objects st),
   {| objects := (objects st ++ [t])%list; ALL_TARGETS := ALL_TARGETS st |}).

(** [self.ALL_TARGETS.append(self)] *)
Definition ALL_TARGETS_append (self : addr) (st : State) : State :=
  {| objects := objects st; ALL_TARGETS := (ALL_TARGETS st ++ [self])%list |}.

(** Lines 79-85 of [Target.__init__]: the attributes of the new object.  An
    argument left out is [None]. *)
Definition init_attributes (k : TargetKind) (mnemonic desc : string)
    (scope : TargetScope) (build_type : option BuildType)
    (flags : option (gset string)) : Target :=
  {| mnemonic := mnemonic;
     desc := desc;
     build_type := match build_type with Some b => b | None => BUILD_NORMAL end;
     flags := match flags with Some f => f | None => ∅ end;
     scope := scope;
     kind := k |}.

(** [Target.__init__] on the branch [self.scope != TargetScope.BOTH]. *)
Definition Target_init_register (k : TargetKind) (mnemonic desc : string)
    (scope : TargetScope) (build_type : option BuildType)
    (flags : option (gset string)) (st : State) : addr * State :=
  let '(self, st) :=
    new_object (init_attributes k mnemonic desc scope build_type flags) st in
  (self, ALL_TARGETS_append self st).

(** The truth value of [flags] in [... if flags else ...]: [None] and the
    empty set are false. *)
Definition truthy (flags : option (gset string)) : bool :=
  match flags with
  | Some f => bool_decide (f ≠ ∅)
  | None => false
  end.

(** [Target.__init__].  The two nested [DelegatorTarget(self, ...)] calls pass
    the literal scopes [LOCAL] and [GLOBAL], so they run [Target.__init__] on
    its first branch (see [Target_init_not_BOTH]). *)
Definition Target_init (k : TargetKind) (mnemonic desc : string)
    (scope : TargetScope) (build_type : option BuildType)
    (flags : option (gset string)) (st : State) : addr * State :=
  if decide (scope ≠ BOTH) then
    Target_init_register k mnemonic desc scope build_type flags st
  else
    let '(self, st) :=
      new_object (init_attributes k mnemonic desc scope build_type flags) st in
    let '(_, st) :=
      Target_init_register (DelegatorTarget self) mnemonic desc LOCAL
        build_type flags st in
    let new_flags : gset string := {["-all"]} in
    let new_flags :=
      if truthy flags
      then new_flags ∪ (match flags with Some f => f | None => ∅ end)
      else new_flags in
    let '(_, st) :=
      Target_init_register (DelegatorTarget self) mnemonic desc GLOBAL
        build_type (Some new_flags) st in
    (self, st).

(** The constructors of the subclasses: each calls [Target.__init__] on its
    remaining arguments and then assigns the attribute the subclass adds. *)
Definition new_CompositeTarget (targets : list addr) :=
  Target_init (CompositeTarget targets).
Definition new_BuildSystemTarget (build_target : string) :=
  Target_init (BuildSystemTarget build_target).
Definition new_DelegatorTarget (delegate : addr) :=
  Target_init (DelegatorTarget delegate).

(** ** The registry's queries *)

Section Registry.

(** The order in which Python iterates over a set is not specified: it is
    some enumeration of the elements. *)
Variable set_iter : gset string → list string.

(** [Target.config_string], on the sequence the iteration over [flags]
    yields; [String.concat sep l] is [sep.join(l)]. *)
Definition config_string (mnemonic : string) (flags : list string) : string :=
  let flag_string := String.concat " " (map (λ flag, "--" +:+ flag) flags) in
  let flag_string :=
    if decide (flag_string = "") then "" else " " +:+ flag_string in
  mnemonic +:+ flag_string.

(** [Target.__str__] *)
Definition Target_str (self : Target) : string :=
  config_string (mnemonic self) (set_iter (flags self)).

(** [Target.get_all_targets] *)
Definition get_all_targets (st : State) : list addr := ALL_TARGETS st.

(** [item.flags] for a reference [item]. *)
Definition flags_of (st : State) (item : addr) : gset string :=
  match objects st !! item with
  | Some t => flags t
  | None => ∅
  end.

(** [Target.get_all_possible_flags]: [functools.reduce] folds from the
    left. *)
Definition get_all_possible_flags (st : State) : gset string :=
  foldl (λ agg item, agg ∪ flags_of st item) ∅ (get_all_targets st).

(** The test of the loop of [get_target]. *)
Definition matches (st : State) (mnemonic : string) (flags : gset string)
    (target : addr) : bool :=
  match objects st !! target with
  | Some {| mnemonic := target_mnemonic; flags := target_flags |} =>
      bool_decide (target_mnemonic = mnemonic)
      && bool_decide (flags = target_flags)
  | None => false
  end.

(** [Target.get_target] *)
Definition get_target (st : State) (mnemonic : string) (flags : gset string)
    : result addr :=
  let matching := filter (λ target, matches st mnemonic flags target = true)
                         (get_all_targets st) in
  match matching with
  | [] =>
      Raise (NoSuchTargetException
               ("Could not find target '"
                +:+ config_string mnemonic (set_iter flags) +:+ "'"))
  | [target] => Return target
  | _ => Raise (AssertionError "Conflicting targets specified in code")
  end.

End Registry.

(** ** Execution *)

(** The assignment [target.scope = s] on the object [target] refers to. *)
Definition with_scope (s : TargetScope) (t : Target) : Target :=
  {| mnemonic := mnemonic t;
     desc := desc t;
     build_type := build_type t;
     flags := flags t;
     scope := s;
     kind := kind t |}.

Definition set_scope (target : addr) (s : TargetScope) (st : State) : State :=
  {| objects := alter (with_scope s) target (objects st);
     ALL_TARGETS := ALL_TARGETS st |}.

Section Execution.

(** The types of [context] and [args], the state of the external builder
    and the type of what its method returns. *)
Variables Path Args B V : Type.

(** [builder.execute_build_target(build_target, context, is_global, args)]:
    the builder is an external collaborator, it has a state of its own and
    no access to the targets. *)
Variable execute_build_target :
  string → Path → bool → Args → B → result V * B.

(** What a call of [execute] leaves: the value returned ([None] in every
    class of this module) or the exception raised, the store and the
    builder's state. *)
Definition outcome : Type := result unit * State * B.

(** [BuildSystemTarget.execute]: the value the builder returns is dropped. *)
Definition BuildSystemTarget_execute (self : Target)
    (self_build_target : string) (context : Path) (args : Args)
    (st : State) (b : B) : outcome :=
  let build_target :=
    if bool_decide (self_build_target ≠ "")
       || bool_decide (scope self = LOCAL)
    then self_build_target else "all" in
  let '(r, b) :=
    execute_build_target build_target context
      (bool_decide (scope self = GLOBAL)) args b in
  match r with
  | Return _ => (Return (), st, b)
  | Raise e => (Raise e, st, b)
  end.

(** [CompositeTarget.execute]: the loop over [self.targets]; an exception
    raised by a child leaves the loop. *)
Fixpoint CompositeTarget_execute
    (child_execute : addr → State → B → option outcome)
    (targets : list addr) (st : State) (b : B) : option outcome :=
  match targets with
  | [] => Some (Return (), st, b)
  | child :: targets =>
      match child_execute child st b with
      | None => None
      | Some (Return _, st, b) =>
          CompositeTarget_execute child_execute targets st b
      | Some (Raise e, st, b) => Some (Raise e, st, b)
      end
  end.

(** [DelegatorTarget.execute]: the [finally] clause runs after the call
    whether it returned or raised. *)
Definition DelegatorTarget_execute
    (delegate_execute : addr → State → B → option outcome)
    (self : Target) (delegate : addr) (st : State) (b : B) : option outcome :=
  match objects st !! delegate with
  | None => None
  | Some d =>
      let old_scope := scope d in
      let st := set_scope delegate (scope self) st in
      match delegate_execute delegate st b with
      | None => None
      | Some (return_value, st, b) =>
          Some (return_value, set_scope delegate old_scope st, b)
      end
  end.

(** [self.execute(builder, context, args)], dispatched on the class of
    [self].  The nesting of calls is bounded by [fuel]; [None] is a run that
    needs more ([execute_terminates] shows that [S self] is enough). *)
Fixpoint execute (fuel : nat) (context : Path) (args : Args) (self : addr)
    (st : State) (b : B) : option outcome :=
  match fuel with
  | 0 => None
  | S fuel =>
      match objects st !! self with
      | None => None
      | Some t =>
          match kind t with
          | CompositeTarget targets =>
              CompositeTarget_execute (execute fuel context args) targets st b
          | BuildSystemTarget build_target =>
              Some (BuildSystemTarget_execute t build_target context args st b)
          | DelegatorTarget delegate =>
              DelegatorTarget_execute (execute fuel context args) t delegate
                st b
          end
      end
  end.

(** One operation of a program on the targets: the construction of a target
    from references to existing objects, or a call of [execute]. *)
Inductive step : State → State → Prop :=
  | step_CompositeTarget st targets m d sc bt fl :
      Forall (λ child, child < length (objects st)) targets →
      step st (new_CompositeTarget targets m d sc bt fl st).2
  | step_BuildSystemTarget st build_target m d sc bt fl :
      step st (new_BuildSystemTarget build_target m d sc bt fl st).2
  | step_DelegatorTarget st delegate m d sc bt fl :
      delegate < length (objects st) →
      step st (new_DelegatorTarget delegate m d sc bt fl st).2
  | step_execute st fuel context args self b r st' b' :
      execute fuel context args self st b = Some (r, st', b') →
      step st st'.

(** The states a program can be in between two operations. *)
Definition reachable (st : State) : Prop := rtc step initial st.

(** The children of a composite return one after the other, in the order of
    the list, each starting where the one before it stopped. *)
Inductive children_return (fuel : nat) (context : Path) (args : Args) :
    list addr → State → B → State → B → Prop :=
  | children_return_nil st b :
      children_return fuel context args [] st b st b
  | children_return_cons child targets st b st1 b1 st2 b2 :
      execute fuel context args child st b = Some (Return (), st1, b1) →
      children_return fuel context args targets st1 b1 st2 b2 →
      children_return fuel context args (child :: targets) st b st2 b2.

End Execution.

(** A builder that records the calls it receives, and fails on the build
    targets [fails] names. *)
Record call : Set := mkCall {
  call_build_target : string;
  call_context : string;
  call_is_global : bool;
  call_args : list string
}.

Definition recording_builder (fails : string → option string)
    (build_target context : string) (is_global : bool) (args : list string)
    (log : list call) : result unit * list call :=
  (match fails build_target with
   | Some msg => Raise (BuilderException msg)
   | None => Return ()
   end,
   (log ++ [mkCall build_target context is_global args])%list).

(** ** Well-formed states *)

(** The references an object holds. *)
Definition refs (k : TargetKind) : list addr :=
  match k with
  | CompositeTarget targets => targets
  | BuildSystemTarget _ => []
  | DelegatorTarget delegate => [delegate]
  end.

(** An object refers to objects that existed when it was constructed, and the
    registry lists existing objects, each once. *)
Definition wf_refs (st : State) : Prop :=
  ∀ a t, objects st !! a = Some t → Forall (λ c, c < a) (refs (kind t)).

Definition wf (st : State) : Prop :=
  wf_refs st
  ∧ Forall (λ a, a < length (objects st)) (ALL_TARGETS st)
  ∧ NoDup (ALL_TARGETS st).

(** [s] occurs in [t]. *)
Definition substring_of (s t : string) : Prop :=
  ∃ pre post, t = pre +:+ s +:+ post.

(** The flags lines 93-94 of [Target.__init__] compute for the global
    delegator of a target of scope [BOTH]. *)
Definition global_flags (fl : option (gset string)) : gset string :=
  if truthy fl then {["-all"]} ∪ default ∅ fl else {["-all"]}.

(** The registered object [a] has the identity [(m, F)]. *)
Definition has_identity (st : State) (a : addr) (m : string) (F : gset string)
    : Prop :=
  ∃ t, objects st !! a = Some t ∧ mnemonic t = m ∧ flags t = F.

(** No two entries of the registry have the same identity. *)
Definition identities_distinct (st : State) : Prop :=
  ∀ i j a a' m F,
    ALL_TARGETS st !! i = Some a → ALL_TARGETS st !! j = Some a' →
    has_identity st a m F → has_identity st a' m F → i = j.

(** Every flag rendered as [--flag], each after a space. *)
Definition render_flags (l : list string) : string :=
  foldr (λ flag acc, " --" +:+ flag +:+ acc) "" l.

(** The build target a [BuildSystemTarget] asks the builder for, in the words
    of the specification. *)
Definition effective_name (build_target : string) (s : TargetScope) : string :=
  if decide (build_target = "") then
    match s with LOCAL => "" | _ => "all" end
  else build_target.

(** A builder without state that always succeeds. *)
Definition silent_builder (_ _ : string) (_ : bool) (_ : list string) (b : ())
    : result () * () := (Return (), b).

(** Example states: a [BuildSystemTarget] of scope [BOTH] with the flag
    [unit]; then a global one named [custom]; then a composite of three of the
    registered targets. *)
Definition example_both : State :=
  (new_BuildSystemTarget "" "build" "desc" BOTH None (Some {["unit"]})
     initial).2.
Definition example_custom : State :=
  (new_BuildSystemTarget "custom" "install" "desc" GLOBAL None None
     example_both).2.
Definition example_composite : State :=
  (new_CompositeTarget [1; 3; 2] "everything" "desc" LOCAL None None
     example_custom).2.

(** A registered global target (object 0), a delegator of scope [BOTH] that
    delegates to it (object 1, with its own delegators 2 and 3), and a
    registered composite of that delegator (object 4). *)
Definition example_nested : State :=
  (new_CompositeTarget [1] "everything" "desc" LOCAL None None
     (new_DelegatorTarget 0 "again" "desc" BOTH None None
        (new_BuildSystemTarget "" "build" "desc" GLOBAL None None
           initial).2).2).2.

(** Builders for the examples: one that fails on the empty build target, one
    that fails on the build target [custom], one that never fails. *)
Definition fails_on (name : string) (build_target : string) : option string :=
  if decide (build_target = name) then Some "boom" else None.

Definition never_fails (_ : string) : option string := None.

(** [self] delegates to [target] through the delegators of [path]: an empty
    path is [self] itself. *)
Fixpoint delegation_path (st : State) (self : addr) (path : list addr)
    (target : addr) : Prop :=
  match path with
  | [] => self = target
  | next :: path =>
      (∃ t, objects st !! self = Some t ∧ kind t = DelegatorTarget next)
      ∧ delegation_path st next path target
  end.

(** Three build-system targets (objects 0, 1 and 2), a composite of the
    first two (object 3), a composite of that composite and the third
    (object 4), and a composite of the three (object 5). *)
Definition example_flatten : State :=
  (new_CompositeTarget [0; 1; 2] "flat" "desc" GLOBAL None None
     (new_CompositeTarget [3; 2] "nested" "desc" GLOBAL None None
        (new_CompositeTarget [0; 1] "pair" "desc" GLOBAL None None
           (new_BuildSystemTarget "c" "c" "desc" GLOBAL None None
              (new_BuildSystemTarget "b" "b" "desc" LOCAL None None
                 (new_BuildSystemTarget "a" "a" "desc" LOCAL None None
                    initial).2).2).2).2).2).2.

(** * Properties *)

(** ** The enumeration of scopes *)

Lemma TargetScope_value_BOTH :
  TargetScope_value BOTH
  = Z.lor (TargetScope_value GLOBAL) (TargetScope_value LOCAL).
Proof. reflexivity. Qed.

Lemma TargetScope_value_inj s1 s2 :
  TargetScope_value s1 = TargetScope_value s2 → s1 = s2.
Proof. by destruct s1, s2. Qed.

(** ** The store *)

Lemma with_scope_id t : with_scope (scope t) t = t.
Proof. by destruct t. Qed.

Lemma with_scope_twice s1 s2 t :
  with_scope s1 (with_scope s2 t) = with_scope s1 t.
Proof. done. Qed.

Lemma set_scope_id st a t :
  objects st !! a = Some t → set_scope a (scope t) st = st.
Proof.
  intros Ha. destruct st as [h r]. unfold set_scope. cbn [objects] in *.
  f_equal. apply list_eq. intros i. destruct (decide (a = i)) as [<-|Hne].
  - rewrite list_lookup_alter_eq, Ha. simpl. by rewrite with_scope_id.
  - by rewrite list_lookup_alter_ne.
Qed.

Lemma set_scope_twice st a s1 s2 :
  set_scope a s1 (set_scope a s2 st) = set_scope a s1 st.
Proof.
  unfold set_scope. simpl. f_equal. rewrite list_alter_alter_eq.
  by apply list_alter_ext.
Qed.

Lemma set_scope_lookup st a s :
  objects (set_scope a s st) !! a = with_scope s <$> objects st !! a.
Proof. apply list_lookup_alter_eq. Qed.

Lemma set_scope_lookup_ne st a a' s :
  a ≠ a' → objects (set_scope a s st) !! a' = objects st !! a'.
Proof. apply list_lookup_alter_ne. Qed.

Lemma set_scope_restore st a s t :
  objects st !! a = Some t → set_scope a (scope t) (set_scope a s st) = st.
Proof. intros Ha. rewrite set_scope_twice. by apply set_scope_id. Qed.

(** ** Construction *)

Lemma Target_init_not_BOTH k m d sc bt fl st :
  sc ≠ BOTH →
  Target_init k m d sc bt fl st = Target_init_register k m d sc bt fl st.
Proof. intros Hsc. unfold Target_init. by rewrite decide_True. Qed.

Lemma Target_init_register_eq k m d sc bt fl st :
  Target_init_register k m d sc bt fl st =
  (length (objects st),
   {| objects := objects st ++ [init_attributes k m d sc bt fl];
      ALL_TARGETS := ALL_TARGETS st ++ [length (objects st)] |}).
Proof. done. Qed.

Lemma Target_init_BOTH k m d bt fl st :
  Target_init k m d BOTH bt fl st =
  (length (objects st),
   {| objects :=
        objects st ++
        [init_attributes k m d BOTH bt fl;
         init_attributes (DelegatorTarget (length (objects st))) m d LOCAL bt fl;
         init_attributes (DelegatorTarget (length (objects st))) m d GLOBAL bt
           (Some (global_flags fl))];
      ALL_TARGETS :=
        ALL_TARGETS st ++ [S (length (objects st)); S (S (length (objects st)))]
   |}).
Proof.
  unfold Target_init. rewrite decide_False by (by intros []).
  unfold Target_init_register, new_object, ALL_TARGETS_append, global_flags.
  simpl. rewrite !length_app. simpl. rewrite <- !(assoc_L (++)). simpl.
  repeat f_equal; lia.
Qed.

(** ** Well-formedness is preserved *)

Lemma wf_initial : wf initial.
Proof.
  split; [|split]; simpl; [|constructor..].
  intros a t Ha. by destruct a.
Qed.

Lemma wf_refs_set_scope st a s : wf_refs st → wf_refs (set_scope a s st).
Proof.
  intros Hwf a' t Ha'. destruct (decide (a = a')) as [<-|Hne].
  - rewrite set_scope_lookup in Ha'.
    destruct (objects st !! a) as [t0|] eqn:Ht0; simplify_eq/=.
    by apply (Hwf a t0).
  - rewrite set_scope_lookup_ne in Ha' by done. by apply (Hwf a' t).
Qed.

Lemma wf_refs_snoc h r r' t :
  wf_refs {| objects := h; ALL_TARGETS := r |} →
  Forall (λ c, c < length h) (refs (kind t)) →
  wf_refs {| objects := h ++ [t]; ALL_TARGETS := r' |}.
Proof.
  intros Hwf Ht a t' Ha. cbn [objects] in Ha.
  apply lookup_snoc_Some in Ha as [[Hlt Ha]|[-> ->]]; [|done].
  by apply (Hwf a t').
Qed.

Lemma wf_Target_init_register k m d sc bt fl st :
  wf st → Forall (λ c, c < length (objects st)) (refs k) →
  wf (Target_init_register k m d sc bt fl st).2.
Proof.
  intros (Hrefs & Hreg & Hnd) Hk. rewrite Target_init_register_eq.
  destruct st as [h r]. cbn [snd objects ALL_TARGETS] in *.
  split; [|split]; cbn [objects ALL_TARGETS].
  - by eapply wf_refs_snoc.
  - rewrite length_app. simpl. apply Forall_app. split.
    + eapply Forall_impl; [done|]. simpl. lia.
    + constructor; [lia|constructor].
  - apply NoDup_app. split; [done|]. split; [|apply NoDup_singleton].
    intros a Ha Ha'. apply list_elem_of_singleton in Ha' as ->.
    rewrite Forall_forall in Hreg. specialize (Hreg _ Ha). lia.
Qed.

Lemma wf_Target_init k m d sc bt fl st :
  wf st → Forall (λ c, c < length (objects st)) (refs k) →
  wf (Target_init k m d sc bt fl st).2.
Proof.
  intros Hwf Hk. destruct (decide (sc = BOTH)) as [->|Hsc].
  2:{ rewrite Target_init_not_BOTH by done. by apply wf_Target_init_register. }
  rewrite Target_init_BOTH. destruct Hwf as (Hrefs & Hreg & Hnd).
  destruct st as [h r]. cbn [snd objects ALL_TARGETS] in *.
  split; [|split]; cbn [objects ALL_TARGETS].
  - intros a t Ha. cbn [objects] in Ha.
    destruct (decide (a < length h)) as [Hlt|Hge].
    { rewrite lookup_app_l in Ha by done. by apply (Hrefs a t). }
    rewrite lookup_app_r in Ha by lia.
    destruct (a - length h) as [|[|[|n]]] eqn:Hn; simplify_eq/=.
    + eapply Forall_impl; [done|]. simpl. lia.
    + constructor; [lia|constructor].
    + constructor; [lia|constructor].
  - rewrite length_app. simpl. apply Forall_app. split.
    + eapply Forall_impl; [done|]. simpl. lia.
    + repeat constructor; lia.
  - apply NoDup_app. split; [done|]. split.
    + intros a Ha Ha'. rewrite Forall_forall in Hreg. specialize (Hreg _ Ha).
      apply elem_of_cons in Ha' as [->|Ha']; [lia|].
      apply list_elem_of_singleton in Ha' as ->. lia.
    + apply NoDup_cons. split; [|apply NoDup_singleton].
      rewrite list_elem_of_singleton. lia.
Qed.

(** ** Execution *)

Section ExecutionProperties.

Context {Path Args B V : Type}.
Variable execute_build_target :
  string → Path → bool → Args → B → result V * B.

Local Abbreviation execute := (execute Path Args B V execute_build_target).
Local Abbreviation outcome := (outcome B).

(** A call that returns or raises leaves the store as it found it: the
    only assignments are those of [DelegatorTarget.execute], and it undoes
    its own. *)
Lemma CompositeTarget_execute_preserves_state
    (f : addr → State → B → option outcome) targets :
  (∀ c st b r st' b', f c st b = Some (r, st', b') → st' = st) →
  ∀ st b r st' b',
    CompositeTarget_execute B f targets st b = Some (r, st', b') → st' = st.
Proof.
  intros Hf. induction targets as [|c targets IH]; intros st b r st' b' H.
  - by simplify_eq/=.
  - simpl in H. destruct (f c st b) as [[[[u|e] st1] b1]|] eqn:Hc; [| |done].
    + apply Hf in Hc as ->. by eapply IH.
    + apply Hf in Hc as ->. by simplify_eq.
Qed.

Lemma execute_preserves_state fuel context args self st b r st' b' :
  execute fuel context args self st b = Some (r, st', b') → st' = st.
Proof.
  revert self st b r st' b'.
  induction fuel as [|fuel IH]; intros self st b r st' b' H; [done|].
  simpl in H. destruct (objects st !! self) as [t|] eqn:Ht; [|done].
  destruct (kind t) as [targets|build_target|delegate].
  - eapply CompositeTarget_execute_preserves_state; [|done]. apply IH.
  - unfold BuildSystemTarget_execute in H.
    destruct (execute_build_target _ _ _ _ _) as [[v|e] b1]; by simplify_eq.
  - unfold DelegatorTarget_execute in H.
    destruct (objects st !! delegate) as [d|] eqn:Hd; [|done].
    destruct (execute fuel _ _ _ _ _) as [[[r1 st1] b1]|] eqn:Hc; [|done].
    apply IH in Hc as ->. simplify_eq. by apply set_scope_restore.
Qed.

(** More fuel does not change what a call leaves. *)
Lemma CompositeTarget_execute_ext
    (f g : addr → State → B → option outcome) targets :
  (∀ c st b o, f c st b = Some o → g c st b = Some o) →
  ∀ st b o,
    CompositeTarget_execute B f targets st b = Some o →
    CompositeTarget_execute B g targets st b = Some o.
Proof.
  intros Hfg. induction targets as [|c targets IH]; intros st b o H; [done|].
  simpl in *. destruct (f c st b) as [[[[u|e] st1] b1]|] eqn:Hc; [| |done].
  - rewrite (Hfg _ _ _ _ Hc). by apply IH.
  - by rewrite (Hfg _ _ _ _ Hc).
Qed.

Lemma execute_fuel_mono fuel fuel' context args self st b o :
  execute fuel context args self st b = Some o →
  fuel ≤ fuel' →
  execute fuel' context args self st b = Some o.
Proof.
  revert fuel' self st b o.
  induction fuel as [|fuel IH]; intros fuel' self st b o H Hle; [done|].
  destruct fuel' as [|fuel']; [lia|]. simpl in *.
  destruct (objects st !! self) as [t|]; [|done].
  destruct (kind t) as [targets|build_target|delegate].
  - eapply CompositeTarget_execute_ext; [|done].
    intros c st1 b1 o1 H1. apply (IH fuel'); [done|lia].
  - done.
  - unfold DelegatorTarget_execute in *.
    destruct (objects st !! delegate) as [d|]; [|done].
    destruct (execute fuel _ _ _ _ _) as [[[r1 st1] b1]|] eqn:Hc; [|done].
    rewrite (IH fuel' _ _ _ _ Hc) by lia. done.
Qed.

(** Every call returns or raises: an object calls objects constructed
    before it, so a nesting of [S self] calls is enough for [self]. *)
Lemma CompositeTarget_execute_terminates
    (f : addr → State → B → option outcome) targets st :
  Forall (λ c, ∀ b, ∃ r b', f c st b = Some (r, st, b')) targets →
  ∀ b, ∃ r b', CompositeTarget_execute B f targets st b = Some (r, st, b').
Proof.
  induction 1 as [|c targets Hc _ IH]; intros b; simpl; [by eauto|].
  destruct (Hc b) as ([u|e] & b1 & ->); [apply IH | by eauto].
Qed.

Lemma execute_terminates context args self :
  ∀ st b, wf_refs st → self < length (objects st) →
  ∃ r b', execute (S self) context args self st b = Some (r, st, b').
Proof.
  induction (lt_wf self) as [self _ IH]. intros st b Hwf Hlt.
  destruct (lookup_lt_is_Some_2 _ _ Hlt) as [t Ht].
  simpl. rewrite Ht. pose proof (Hwf _ _ Ht) as Hrefs.
  destruct (kind t) as [targets|build_target|delegate]; simpl in Hrefs.
  - apply CompositeTarget_execute_terminates.
    eapply Forall_impl; [exact Hrefs|]. intros c Hc b0. simpl in Hc.
    assert (c < length (objects st)) as Hc' by lia.
    destruct (IH c Hc st b0 Hwf Hc') as (r & b' & Hex).
    exists r, b'. eapply execute_fuel_mono; [done|lia].
  - unfold BuildSystemTarget_execute.
    destruct (execute_build_target _ _ _ _ _) as [[v|e] b1]; by eauto.
  - rewrite Forall_singleton in Hrefs.
    assert (is_Some (objects st !! delegate)) as [d Hd]
      by (apply lookup_lt_is_Some_2; lia).
    unfold DelegatorTarget_execute. rewrite Hd.
    destruct (IH delegate Hrefs (set_scope delegate (scope t) st) b)
      as (r & b' & Hex).
    { by apply wf_refs_set_scope. }
    { simpl. rewrite length_alter. lia. }
    rewrite (execute_fuel_mono _ self _ _ _ _ _ _ Hex) by lia.
    exists r, b'. by rewrite set_scope_restore.
Qed.

Lemma wf_step st st' :
  wf st → step Path Args B V execute_build_target st st' → wf st'.
Proof.
  intros Hwf Hstep. destruct Hstep.
  - by apply wf_Target_init.
  - apply wf_Target_init; [done|constructor].
  - apply wf_Target_init; [done|]. simpl. by constructor.
  - by erewrite execute_preserves_state.
Qed.

Lemma reachable_wf st :
  reachable Path Args B V execute_build_target st → wf st.
Proof.
  unfold reachable. intros H.
  eapply (rtc_ind_r (λ st, wf st) initial); [| |exact H].
  - apply wf_initial.
  - intros st1 st2 _ Hstep IH. by eapply wf_step.
Qed.

End ExecutionProperties.

(** ** The display string *)

Lemma string_append_cons c (s1 s2 : string) :
  String c s1 +:+ s2 = String c (s1 +:+ s2).
Proof. reflexivity. Qed.

Lemma string_append_empty_r (s : string) : s +:+ "" = s.
Proof.
  induction s as [|c s IH]; [done|]. by rewrite string_append_cons, IH.
Qed.

Lemma string_append_assoc (s1 s2 s3 : string) :
  (s1 +:+ s2) +:+ s3 = s1 +:+ s2 +:+ s3.
Proof.
  induction s1 as [|c s1 IH]; [done|]. by rewrite !string_append_cons, IH.
Qed.

Lemma concat_flags_render flag l :
  " " +:+ String.concat " " (map (λ flag, "--" +:+ flag) (flag :: l))
  = render_flags (flag :: l).
Proof.
  revert flag. induction l as [|flag' l IH]; intros flag.
  - cbn [map String.concat render_flags foldr].
    by rewrite string_append_empty_r.
  - specialize (IH flag'). cbn [map] in *.
    change (String.concat " " (("--" +:+ flag) ::
              (("--" +:+ flag') :: map (λ flag, "--" +:+ flag) l)))
      with (("--" +:+ flag) +:+ " " +:+
              String.concat " " (("--" +:+ flag') ::
                                 map (λ flag, "--" +:+ flag) l)).
    rewrite IH. cbn [render_flags foldr].
    rewrite string_append_assoc. reflexivity.
Qed.

Lemma config_string_render m l : config_string m l = m +:+ render_flags l.
Proof.
  unfold config_string. destruct l as [|flag l].
  - rewrite decide_True by reflexivity. reflexivity.
  - rewrite decide_False.
    + by rewrite concat_flags_render.
    + cbn [map String.concat]. destruct (map _ l); discriminate.
Qed.

(** C9: the display string of a target is its mnemonic followed by each flag
    rendered as [--flag] after a space, whatever the order in which the set of
    flags is iterated; the mnemonic "build" with the flags {"jobs"} renders
    as "build --jobs", and a target without flags renders as its mnemonic
    alone, with no trailing space. *)
Theorem config_string_display (set_iter : gset string → list string) :
  (∀ F, set_iter F ≡ₚ elements F) →
  (∀ m l, config_string m l = m +:+ render_flags l)
  ∧ (∀ t, Target_str set_iter t
          = mnemonic t +:+ render_flags (set_iter (flags t)))
  ∧ (∀ t, mnemonic t = "build" → flags t = {["jobs"]} →
          Target_str set_iter t = "build --jobs")
  ∧ (∀ t, flags t = ∅ → Target_str set_iter t = mnemonic t).
Proof.
  intros Hiter. split; [apply config_string_render|].
  split; [intros t; apply config_string_render|]. split.
  - intros t Hm HF. unfold Target_str. rewrite Hm, HF.
    pose proof (Hiter {["jobs"]}) as Hp. rewrite elements_singleton in Hp.
    apply Permutation_singleton_r in Hp as ->. reflexivity.
  - intros t HF. unfold Target_str. rewrite HF.
    pose proof (Hiter ∅) as Hp. rewrite elements_empty in Hp.
    apply Permutation_nil_r in Hp as ->. rewrite config_string_render.
    apply string_append_empty_r.
Qed.

Lemma config_string_display_witness :
  Target_str elements
    (init_attributes (BuildSystemTarget "") "build" "" LOCAL None
       (Some {["jobs"]}))
  = "build --jobs".
Proof.
  apply (config_string_display elements); [done|reflexivity|reflexivity].
Defined.

(** ** Defaults of the constructor *)

Lemma Target_init_self_lookup k m d sc bt fl st :
  objects (Target_init k m d sc bt fl st).2 !! (Target_init k m d sc bt fl st).1
  = Some (init_attributes k m d sc bt fl).
Proof.
  destruct (decide (sc = BOTH)) as [->|Hsc].
  - rewrite Target_init_BOTH. simpl.
    by rewrite (list_lookup_middle (objects st) _ _ (length (objects st))).
  - rewrite Target_init_not_BOTH, Target_init_register_eq by done. simpl.
    by rewrite (list_lookup_middle (objects st) [] _ (length (objects st))).
Qed.

(** C10: a target constructed without [build_type] has the build type
    [BUILD_NORMAL], whatever flags it is given; a target constructed without
    [flags] has the empty set of flags, whatever build type it is given; an
    argument that is given is kept; and a target constructed without either
    has the build type [BUILD_NORMAL] and the empty set of flags, with the
    mnemonic and the scope it was given. *)
Theorem Target_init_defaults k m d sc st :
  (∀ fl, ∃ t,
     objects (Target_init k m d sc None fl st).2
       !! (Target_init k m d sc None fl st).1 = Some t
     ∧ build_type t = BUILD_NORMAL
     ∧ flags t = match fl with Some F => F | None => ∅ end
     ∧ mnemonic t = m
     ∧ scope t = sc)
  ∧ (∀ bt, ∃ t,
       objects (Target_init k m d sc bt None st).2
         !! (Target_init k m d sc bt None st).1 = Some t
       ∧ flags t = ∅
       ∧ build_type t = match bt with Some b => b | None => BUILD_NORMAL end
       ∧ mnemonic t = m
       ∧ scope t = sc)
  ∧ (∃ t, objects (Target_init k m d sc None None st).2
            !! (Target_init k m d sc None None st).1 = Some t
          ∧ build_type t = BUILD_NORMAL
          ∧ flags t = ∅
          ∧ mnemonic t = m
          ∧ scope t = sc).
Proof.
  split; [|split].
  - intros fl. exists (init_attributes k m d sc None fl).
    split; [apply Target_init_self_lookup|done].
  - intros bt. exists (init_attributes k m d sc bt None).
    split; [apply Target_init_self_lookup|done].
  - exists (init_attributes k m d sc None None).
    split; [apply Target_init_self_lookup|done].
Qed.

(** ** Lookup *)

Lemma matches_has_identity st m F a :
  matches st m F a = true ↔ has_identity st a m F.
Proof.
  unfold matches, has_identity. split.
  - destruct (objects st !! a) as [[tm td tb tf ts tk]|]; [|done].
    intros [Hm HF]%andb_prop. apply bool_decide_eq_true in Hm, HF.
    eexists. split; [done|]. by simplify_eq/=.
  - intros ([tm td tb tf ts tk] & -> & Hm & HF). simpl in *. subst.
    by rewrite !bool_decide_eq_true_2.
Qed.

(** The three exits of [get_target], by the number of matching entries. *)
Lemma get_target_none set_iter st m F :
  filter (λ a, matches st m F a = true) (ALL_TARGETS st) = [] →
  get_target set_iter st m F =
  Raise (NoSuchTargetException
           ("Could not find target '" +:+ config_string m (set_iter F) +:+ "'")).
Proof. unfold get_target, get_all_targets. by intros ->. Qed.

Lemma get_target_one set_iter st m F a :
  filter (λ a, matches st m F a = true) (ALL_TARGETS st) = [a] →
  get_target set_iter st m F = Return a.
Proof. unfold get_target, get_all_targets. by intros ->. Qed.

Lemma get_target_many set_iter st m F :
  2 ≤ length (filter (λ a, matches st m F a = true) (ALL_TARGETS st)) →
  get_target set_iter st m F =
  Raise (AssertionError "Conflicting targets specified in code").
Proof.
  unfold get_target, get_all_targets.
  destruct (filter _ _) as [|x [|y l]]; simpl; [lia|lia|done].
Qed.

Lemma filter_unique {A} (P : A → Prop) `{!∀ x, Decision (P x)} (l : list A) a :
  NoDup l → a ∈ l → P a → (∀ x, x ∈ l → P x → x = a) → filter P l = [a].
Proof.
  intros Hnd Ha HPa Huniq.
  apply list_elem_of_split in Ha as (l1 & l2 & ->).
  apply NoDup_app in Hnd as (_ & Hdisj & Hnd2).
  apply NoDup_cons in Hnd2 as [Ha2 _].
  rewrite filter_app, filter_cons_True by done.
  assert (filter P l1 = []) as ->.
  { apply elem_of_nil_inv. intros x [HPx Hx]%list_elem_of_filter.
    assert (x = a) as -> by (apply Huniq; [set_solver|done]).
    apply (Hdisj a Hx). by left. }
  assert (filter P l2 = []) as ->; [|done].
  apply elem_of_nil_inv. intros x [HPx Hx]%list_elem_of_filter.
  assert (x = a) as -> by (apply Huniq; [set_solver|done]). done.
Qed.

Lemma filter_two_split {A} (P : A → Prop) `{!∀ x, Decision (P x)}
    (l : list A) x y r :
  filter P l = x :: y :: r →
  ∃ l1 l2 l3, l = l1 ++ x :: l2 ++ y :: l3.
Proof.
  intros Hf.
  assert (∀ l z r, filter P l = z :: r →
            ∃ l1 l2, l = l1 ++ z :: l2 ∧ filter P l2 = r) as Hone.
  { clear. induction l as [|a l IH]; intros z r Hf; [done|].
    rewrite filter_cons in Hf. destruct (decide (P a)).
    - simplify_eq. by exists [], l.
    - destruct (IH _ _ Hf) as (l1 & l2 & -> & Hr). by exists (a :: l1), l2. }
  destruct (Hone _ _ _ Hf) as (l1 & l' & -> & Hf').
  destruct (Hone _ _ _ Hf') as (l2 & l3 & -> & _). by exists l1, l2, l3.
Qed.

(** C2: when exactly one registered target has the mnemonic [m] and a set of
    flags equal to [F], [get_target] returns it; when none has,
    [get_target] raises [NoSuchTargetException] with a message that contains
    the display string of [(m, F)]. *)
Theorem get_target_correct set_iter st m F :
  NoDup (ALL_TARGETS st) →
  (∀ a, a ∈ get_all_targets st → has_identity st a m F →
        (∀ a', a' ∈ get_all_targets st → has_identity st a' m F → a' = a) →
        get_target set_iter st m F = Return a)
  ∧ ((∀ a, a ∈ get_all_targets st → ¬ has_identity st a m F) →
     ∃ msg, get_target set_iter st m F = Raise (NoSuchTargetException msg)
            ∧ substring_of (config_string m (set_iter F)) msg).
Proof.
  intros Hnd. unfold get_all_targets. split.
  - intros a Ha Hid Huniq. apply get_target_one.
    apply filter_unique; [done|done|by apply matches_has_identity|].
    intros x Hx Hm. apply Huniq; [done|by apply matches_has_identity].
  - intros Hnone. eexists. split.
    + apply get_target_none. apply elem_of_nil_inv.
      intros x [Hm Hx]%list_elem_of_filter.
      by apply (Hnone x Hx), matches_has_identity.
    + by exists "Could not find target '", "'".
Qed.

Lemma get_target_correct_witness :
  get_target elements example_custom "install" ∅ = Return 3.
Proof.
  apply (get_target_correct elements example_custom "install" ∅).
  - apply (bool_decide_unpack _). by vm_compute.
  - apply (bool_decide_unpack _). by vm_compute.
  - eexists. by vm_compute.
  - intros a' Ha' (t & Ht & Hm & _). vm_compute in Ha'.
    apply elem_of_cons in Ha' as [->|Ha']; [by simplify_eq/=|].
    apply elem_of_cons in Ha' as [->|Ha']; [by simplify_eq/=|].
    by apply list_elem_of_singleton in Ha'.
Defined.

Lemma filter_length_two {A} (P : A → Prop) `{!∀ x, Decision (P x)}
    (l : list A) i j x y :
  i < j → l !! i = Some x → l !! j = Some y → P x → P y →
  2 ≤ length (filter P l).
Proof.
  revert i j. induction l as [|a l IH]; intros i j Hij Hi Hj HPx HPy; [done|].
  destruct j as [|j]; [lia|]. simpl in Hj. destruct i as [|i].
  - simplify_eq/=. rewrite filter_cons_True by done. simpl.
    assert (y ∈ filter P l) as Hy.
    { apply list_elem_of_filter. split; [done|].
      by eapply list_elem_of_lookup_2. }
    destruct (filter P l); [by apply elem_of_nil in Hy|simpl; lia].
  - simpl in Hi. assert (2 ≤ length (filter P l)) by (apply (IH i j); [lia|done..]).
    rewrite filter_cons. destruct (decide (P a)); simpl; lia.
Qed.

(** Two entries of the registry with the identity asked for: the assertion
    of [get_target] fails. *)
Lemma get_target_conflict set_iter st m F i j a a' :
  i ≠ j →
  ALL_TARGETS st !! i = Some a → ALL_TARGETS st !! j = Some a' →
  has_identity st a m F → has_identity st a' m F →
  get_target set_iter st m F =
  Raise (AssertionError "Conflicting targets specified in code").
Proof.
  intros Hij Hi Hj Ha Ha'. apply get_target_many.
  apply matches_has_identity in Ha, Ha'.
  destruct (decide (i < j)).
  - by apply (filter_length_two _ _ i j a a').
  - apply (filter_length_two _ _ j i a' a); [lia|done..].
Qed.

(** With pairwise distinct identities the assertion cannot fail. *)
Lemma get_target_no_conflict set_iter st m F msg :
  identities_distinct st →
  get_target set_iter st m F ≠ Raise (AssertionError msg).
Proof.
  intros Hdist Hget. unfold get_target, get_all_targets in Hget.
  destruct (filter _ _) as [|x [|y r]] eqn:Hf; [done|done|].
  assert (x ∈ filter (λ a, matches st m F a = true) (ALL_TARGETS st)) as Hx
    by (rewrite Hf; set_solver).
  assert (y ∈ filter (λ a, matches st m F a = true) (ALL_TARGETS st)) as Hy
    by (rewrite Hf; set_solver).
  apply list_elem_of_filter in Hx as [Hx _], Hy as [Hy _].
  apply matches_has_identity in Hx, Hy.
  apply filter_two_split in Hf as (l1 & l2 & l3 & Hl).
  assert (length l1 = length l1 + S (length l2)); [|lia].
  apply (Hdist _ _ x y m F); [| |done|done]; rewrite Hl.
  - by apply list_lookup_middle.
  - rewrite lookup_app_r by lia.
    replace (length l1 + S (length l2) - length l1) with (S (length l2)) by lia.
    simpl. by apply list_lookup_middle.
Qed.

(** What a construction adds to the store and to the registry. *)
Lemma Target_init_objects k m d sc bt fl st :
  ∃ new, objects (Target_init k m d sc bt fl st).2 = objects st ++ new.
Proof.
  destruct (decide (sc = BOTH)) as [->|Hsc].
  - rewrite Target_init_BOTH. by eexists.
  - rewrite Target_init_not_BOTH, Target_init_register_eq by done. by eexists.
Qed.

Lemma has_identity_mono st st' a m F :
  (∃ new, objects st' = objects st ++ new) →
  has_identity st a m F → has_identity st' a m F.
Proof.
  intros [new Hnew] (t & Ht & Hm & HF). exists t. split; [|done].
  rewrite Hnew. by apply lookup_app_l_Some.
Qed.

Lemma Target_init_registers k m d sc bt fl st :
  ∃ a tail,
    ALL_TARGETS (Target_init k m d sc bt fl st).2 = ALL_TARGETS st ++ a :: tail
    ∧ has_identity (Target_init k m d sc bt fl st).2 a m (default ∅ fl).
Proof.
  destruct (decide (sc = BOTH)) as [->|Hsc].
  - rewrite Target_init_BOTH.
    exists (S (length (objects st))), [S (S (length (objects st)))].
    split; [done|].
    exists (init_attributes (DelegatorTarget (length (objects st))) m d LOCAL
              bt fl).
    split; [|done]. simpl.
    rewrite lookup_app_r by lia.
    by replace (S (length (objects st)) - length (objects st)) with 1 by lia.
  - rewrite Target_init_not_BOTH, Target_init_register_eq by done.
    exists (length (objects st)), []. split; [done|].
    exists (init_attributes k m d sc bt fl). split; [|done]. simpl.
    by rewrite (list_lookup_middle (objects st) [] _ (length (objects st))).
Qed.

(** C6: a second target with the identity of an earlier one is constructed
    and registered like any other ([Target.__init__] has no check); the
    conflict shows at lookup, where [get_target] fails its assertion with
    [AssertionError], not with [NoSuchTargetException]; and the assertion
    cannot fail while the registered identities are pairwise distinct. *)
Theorem duplicate_identity_detected_at_lookup
    set_iter st k1 k2 m d1 d2 sc1 sc2 bt1 bt2 fl :
  let F := default ∅ fl in
  let r1 := Target_init k1 m d1 sc1 bt1 fl st in
  let r2 := Target_init k2 m d2 sc2 bt2 fl r1.2 in
  (sc1 ≠ BOTH → sc2 ≠ BOTH →
   get_all_targets r2.2 = get_all_targets st ++ [r1.1; r2.1]
   ∧ r1.1 ≠ r2.1
   ∧ has_identity r2.2 r1.1 m F ∧ has_identity r2.2 r2.1 m F)
  ∧ get_target set_iter r2.2 m F
    = Raise (AssertionError "Conflicting targets specified in code")
  ∧ (∀ st' m' F' i j a a',
       i ≠ j →
       get_all_targets st' !! i = Some a → get_all_targets st' !! j = Some a' →
       has_identity st' a m' F' → has_identity st' a' m' F' →
       get_target set_iter st' m' F'
       = Raise (AssertionError "Conflicting targets specified in code"))
  ∧ (∀ st' m' F' msg,
       identities_distinct st' →
       get_target set_iter st' m' F' ≠ Raise (AssertionError msg)).
Proof.
  intros F r1 r2. split; [|split; [|split]].
  - intros Hsc1 Hsc2. subst r2 r1 F. unfold get_all_targets.
    rewrite (Target_init_not_BOTH k1), Target_init_register_eq by done.
    cbn [fst snd].
    rewrite (Target_init_not_BOTH k2), Target_init_register_eq by done.
    cbn [fst snd objects ALL_TARGETS]. rewrite length_app. cbn [length].
    split; [by rewrite <- (assoc_L (++))|]. split; [lia|]. split.
    + exists (init_attributes k1 m d1 sc1 bt1 fl). split; [|done].
      cbn [objects]. rewrite lookup_app_l by (rewrite length_app; simpl; lia).
      by apply list_lookup_middle.
    + exists (init_attributes k2 m d2 sc2 bt2 fl). split; [|done].
      cbn [objects]. apply list_lookup_middle. rewrite length_app. simpl. lia.
  - destruct (Target_init_registers k1 m d1 sc1 bt1 fl st)
      as (a1 & tail1 & Hreg1 & Hid1).
    destruct (Target_init_registers k2 m d2 sc2 bt2 fl r1.2)
      as (a2 & tail2 & Hreg2 & Hid2).
    fold r1 in Hreg1, Hid1. fold r2 in Hreg2, Hid2.
    apply (get_target_conflict set_iter r2.2 m F
             (length (ALL_TARGETS st))
             (length (ALL_TARGETS r1.2)) a1 a2).
    + rewrite Hreg1, length_app. simpl. lia.
    + rewrite Hreg2, Hreg1, <- (assoc_L (++)). by apply list_lookup_middle.
    + rewrite Hreg2. by apply list_lookup_middle.
    + eapply has_identity_mono; [|exact Hid1]. apply Target_init_objects.
    + exact Hid2.
  - intros st' m' F' i j a a'. apply get_target_conflict.
  - intros st' m' F' msg. apply get_target_no_conflict.
Qed.

Lemma example_both_identities_distinct : identities_distinct example_both.
Proof.
  intros i j a a' m F Hi Hj (t & Ht & Hm & HF) (t' & Ht' & Hm' & HF').
  destruct i as [|[|i]], j as [|[|j]]; by simplify_eq/=.
Qed.

Lemma duplicate_identity_detected_at_lookup_witness :
  (get_all_targets
     (new_BuildSystemTarget "b" "build" "second" LOCAL None None
        (new_BuildSystemTarget "a" "build" "first" LOCAL None None initial).2).2
   = [0; 1])
  ∧ get_target elements example_both "build" {["unit"]}
    ≠ Raise (AssertionError "Conflicting targets specified in code").
Proof.
  pose proof (duplicate_identity_detected_at_lookup elements initial
                (BuildSystemTarget "a") (BuildSystemTarget "b") "build"
                "first" "second" LOCAL LOCAL None None None) as H.
  cbv zeta in H. destruct H as (Happend & _ & _ & Hdistinct). split.
  - apply Happend; discriminate.
  - apply Hdistinct. exact example_both_identities_distinct.
Defined.

(** ** Targets of scope [BOTH] *)

(** C1, on the construction of a [BuildSystemTarget] of scope [BOTH] with
    the mnemonic "build" and the flags {"unit"} in a fresh process: two
    delegators are registered and the target itself is not; the local one
    has the flags {"unit"}; the global one has the flags {"unit", "-all"},
    so that a lookup of ("build", {"unit", "all"}) raises
    [NoSuchTargetException]. *)
Theorem both_scope_global_flag_is_dash_all :
  get_all_targets example_both = [1; 2]
  ∧ objects example_both !! 0
    = Some (mkTarget "build" "desc" BUILD_NORMAL {["unit"]} BOTH
              (BuildSystemTarget ""))
  ∧ objects example_both !! 1
    = Some (mkTarget "build" "desc" BUILD_NORMAL {["unit"]} LOCAL
              (DelegatorTarget 0))
  ∧ objects example_both !! 2
    = Some (mkTarget "build" "desc" BUILD_NORMAL {["unit"; "-all"]} GLOBAL
              (DelegatorTarget 0))
  ∧ (∀ set_iter, get_target set_iter example_both "build" {["unit"]} = Return 1)
  ∧ (∀ set_iter,
       get_target set_iter example_both "build" {["unit"; "-all"]} = Return 2)
  ∧ (∀ set_iter, ∃ msg,
       get_target set_iter example_both "build" {["unit"; "all"]}
       = Raise (NoSuchTargetException msg)).
Proof.
  split; [by vm_compute|]. split; [by vm_compute|].
  split; [by vm_compute|]. split; [by vm_compute|].
  split; [|split]; intros set_iter.
  - apply get_target_one. by vm_compute.
  - apply get_target_one. by vm_compute.
  - eexists. apply get_target_none. by vm_compute.
Qed.

(** ** The [execute] methods *)

Section ExecuteMethods.

Context {Path Args B V : Type}.
Variable execute_build_target :
  string → Path → bool → Args → B → result V * B.

Local Abbreviation execute := (execute Path Args B V execute_build_target).
Local Abbreviation children_return :=
  (children_return Path Args B V execute_build_target).

(** C4: [BuildSystemTarget.execute] calls the builder once, on the state it
    was given, and returns or raises as that call does.  The build target it
    passes is [build_target] when that is not empty, the empty string for an
    empty [build_target] in scope [LOCAL], and "all" for an empty
    [build_target] in scope [GLOBAL]; the flag it passes says whether the
    scope is [GLOBAL]. *)
Theorem BuildSystemTarget_execute_calls_builder
    fuel context args self st b t build_target :
  objects st !! self = Some t →
  kind t = BuildSystemTarget build_target →
  let name := effective_name build_target (scope t) in
  let is_global := bool_decide (scope t = GLOBAL) in
  let call := execute_build_target name context is_global args b in
  (build_target ≠ "" → name = build_target)
  ∧ (build_target = "" → scope t = LOCAL → name = "")
  ∧ (build_target = "" → scope t = GLOBAL → name = "all")
  ∧ execute (S fuel) context args self st b
    = Some (match call.1 with
            | Return _ => Return ()
            | Raise e => Raise e
            end, st, call.2).
Proof.
  intros Ht Hk name is_global call. subst call name is_global.
  unfold effective_name. repeat split.
  - intros Hne. by rewrite decide_False.
  - intros -> ->. done.
  - intros -> ->. done.
  - simpl. rewrite Ht, Hk. unfold BuildSystemTarget_execute.
    destruct (decide (build_target = "")) as [->|Hne].
    + destruct (scope t); simpl;
        by destruct (execute_build_target _ _ _ _ _) as [[v|e] b1].
    + rewrite (bool_decide_eq_true_2 (build_target ≠ "")) by done. simpl.
      by destruct (execute_build_target _ _ _ _ _) as [[v|e] b1].
Qed.

(** C3: [DelegatorTarget.execute] runs the delegate with the delegate's
    scope set to the delegator's own, and puts the scope the delegate had
    before back, whether the delegate returned or raised; what the delegate
    returned or raised is what the delegator returns or raises.  The call
    completes, and every completed run leaves this result.  In the store the
    delegate is called on, the delegate has the scope of the delegator and
    its other attributes as before, and every other object and the registry
    are as before. *)
Theorem DelegatorTarget_execute_restores_scope
    context args self st b t delegate d :
  wf_refs st →
  objects st !! self = Some t →
  kind t = DelegatorTarget delegate →
  objects st !! delegate = Some d →
  ∃ r st1 b',
    execute self context args delegate (set_scope delegate (scope t) st) b
    = Some (r, st1, b')
    ∧ execute (S self) context args self st b
      = Some (r, set_scope delegate (scope d) st1, b')
    ∧ scope <$> objects (set_scope delegate (scope d) st1) !! delegate
      = Some (scope d)
    ∧ set_scope delegate (scope d) st1 = st
    ∧ (∀ fuel o, execute fuel context args self st b = Some o →
                 o = (r, set_scope delegate (scope d) st1, b'))
    ∧ objects (set_scope delegate (scope t) st) !! delegate
      = Some (mkTarget (mnemonic d) (desc d) (build_type d) (flags d)
                (scope t) (kind d))
    ∧ (∀ a, a ≠ delegate →
            objects (set_scope delegate (scope t) st) !! a = objects st !! a)
    ∧ get_all_targets (set_scope delegate (scope t) st) = get_all_targets st.
Proof.
  intros Hwf Ht Hk Hd.
  pose proof (Hwf _ _ Ht) as Hrefs. rewrite Hk in Hrefs. simpl in Hrefs.
  rewrite Forall_singleton in Hrefs.
  destruct (execute_terminates execute_build_target context args delegate
              (set_scope delegate (scope t) st) b) as (r & b' & Hex).
  { by apply wf_refs_set_scope. }
  { simpl. rewrite length_alter. by eapply lookup_lt_Some. }
  apply (execute_fuel_mono _ _ self) in Hex; [|lia].
  assert (execute (S self) context args self st b = Some (r, st, b')) as Hself.
  { simpl. rewrite Ht, Hk. unfold DelegatorTarget_execute.
    by rewrite Hd, Hex, set_scope_restore. }
  exists r, (set_scope delegate (scope t) st), b'.
  rewrite (set_scope_restore _ _ _ _ Hd).
  split; [done|]. split; [done|]. split; [by rewrite Hd|]. split; [done|].
  split; [|split; [|split; [|done]]].
  - intros fuel o Ho.
    apply (execute_fuel_mono _ _ (fuel `max` S self)) in Ho; [|lia].
    apply (execute_fuel_mono _ _ (fuel `max` S self)) in Hself; [|lia].
    congruence.
  - by rewrite set_scope_lookup, Hd.
  - intros a Ha. by apply set_scope_lookup_ne.
Qed.

(** The children of a composite all return, or one of them raises after
    those before it returned. *)
Lemma children_return_or_raise fuel context args targets st :
  Forall (λ c, ∀ b, ∃ r b',
              execute fuel context args c st b = Some (r, st, b')) targets →
  ∀ b,
    (∃ b', children_return fuel context args targets st b st b')
    ∨ (∃ pre c post b1 e b2,
         targets = pre ++ c :: post
         ∧ children_return fuel context args pre st b st b1
         ∧ execute fuel context args c st b1 = Some (Raise e, st, b2)).
Proof.
  induction 1 as [|c targets Hc _ IH]; intros b.
  { left. exists b. constructor. }
  destruct (Hc b) as ([[]|e] & b1 & Hex).
  - destruct (IH b1) as [(b' & Hall)|(pre & c' & post & b2 & e & b3 & -> & Hpre & Hraise)].
    + left. exists b'. by econstructor.
    + right. exists (c :: pre), c', post, b2, e, b3.
      split; [done|]. split; [by econstructor|done].
  - right. exists [], c, targets, b, e, b1.
    split; [done|]. split; [constructor|done].
Qed.

Lemma CompositeTarget_execute_all_return fuel context args targets st b st' b' :
  children_return fuel context args targets st b st' b' →
  CompositeTarget_execute B (execute fuel context args) targets st b
  = Some (Return (), st', b').
Proof.
  induction 1 as [|c l st0 b0 st1 b1 st2 b2 Hc _ IH]; [done|].
  simpl. by rewrite Hc.
Qed.

Lemma CompositeTarget_execute_first_raise
    fuel context args pre c post st b st1 b1 e st2 b2 :
  children_return fuel context args pre st b st1 b1 →
  execute fuel context args c st1 b1 = Some (Raise e, st2, b2) →
  CompositeTarget_execute B (execute fuel context args) (pre ++ c :: post) st b
  = Some (Raise e, st2, b2).
Proof.
  intros Hpre Hraise.
  induction Hpre as [|c' l st0 b0 st1 b1 st3 b3 Hc _ IH].
  - simpl. by rewrite Hraise.
  - simpl. rewrite Hc. by apply IH.
Qed.

(** C5: [CompositeTarget.execute] calls the children in the order of the
    list, each with the same builder, context and arguments.  If all of
    them return, the composite returns after the last one; if one raises
    after those before it returned, the composite raises the same exception
    in the state that child left, the later children not having run; and
    one of the two happens. *)
Theorem CompositeTarget_execute_in_order
    fuel context args self st b t targets :
  objects st !! self = Some t →
  kind t = CompositeTarget targets →
  (∀ st' b',
     children_return fuel context args targets st b st' b' →
     execute (S fuel) context args self st b = Some (Return (), st', b'))
  ∧ (∀ pre c post st1 b1 e st2 b2,
       targets = pre ++ c :: post →
       children_return fuel context args pre st b st1 b1 →
       execute fuel context args c st1 b1 = Some (Raise e, st2, b2) →
       execute (S fuel) context args self st b = Some (Raise e, st2, b2))
  ∧ (wf_refs st → self ≤ fuel →
     (∃ st' b', children_return fuel context args targets st b st' b')
     ∨ (∃ pre c post st1 b1 e st2 b2,
          targets = pre ++ c :: post
          ∧ children_return fuel context args pre st b st1 b1
          ∧ execute fuel context args c st1 b1 = Some (Raise e, st2, b2))).
Proof.
  intros Ht Hk. simpl. rewrite Ht, Hk. split; [|split].
  - intros st' b'. apply CompositeTarget_execute_all_return.
  - intros pre c post st1 b1 e st2 b2 ->.
    apply CompositeTarget_execute_first_raise.
  - intros Hwf Hle.
    destruct (children_return_or_raise fuel context args targets st) with (b := b)
      as [(b' & Hall)|(pre & c & post & b1 & e & b2 & Heq & Hpre & Hraise)].
    + pose proof (Hwf _ _ Ht) as Hrefs. rewrite Hk in Hrefs. simpl in Hrefs.
      eapply Forall_impl; [exact Hrefs|]. intros c Hc b0. simpl in Hc.
      destruct (execute_terminates execute_build_target context args c st b0)
        as (r & b' & Hex); [done| |].
      { apply lookup_lt_Some in Ht. lia. }
      exists r, b'. eapply execute_fuel_mono; [done|lia].
    + left. by exists st, b'.
    + right. by exists pre, c, post, st, b1, e, st, b2.
Qed.

End ExecuteMethods.

(** ** The flags in use *)

Lemma foldl_union_elem {A} (g : A → gset string) (l : list A) acc f :
  f ∈ foldl (λ agg item, agg ∪ g item) acc l ↔ f ∈ acc ∨ ∃ a, a ∈ l ∧ f ∈ g a.
Proof.
  revert acc. induction l as [|a l IH]; intros acc; simpl.
  - split; [by left|]. intros [?|(a & Ha & _)]; [done|].
    by apply elem_of_nil in Ha.
  - rewrite IH, elem_of_union. split.
    + intros [[?|?]|(a' & Ha' & ?)]; [by left|right..].
      * exists a. split; [by left|done].
      * exists a'. split; [by right|done].
    + intros [?|(a' & [->|Ha']%elem_of_cons & ?)]; [by left; left| |].
      * by left; right.
      * right. by exists a'.
Qed.

Lemma elem_of_flags_of st a f :
  f ∈ flags_of st a ↔ ∃ t, objects st !! a = Some t ∧ f ∈ flags t.
Proof.
  unfold flags_of. destruct (objects st !! a) as [t|].
  - split; [by exists t|]. by intros (t' & [= <-] & ?).
  - split; [by intros ?%not_elem_of_empty|]. by intros (t' & [=] & _).
Qed.

Lemma elem_of_get_all_possible_flags st f :
  f ∈ get_all_possible_flags st ↔
  ∃ a t, a ∈ get_all_targets st ∧ objects st !! a = Some t ∧ f ∈ flags t.
Proof.
  unfold get_all_possible_flags. rewrite foldl_union_elem. split.
  - intros [?%not_elem_of_empty|(a & Ha & (t & Ht & Hf)%elem_of_flags_of)];
      [done|]. by exists a, t.
  - intros (a & t & Ha & Ht & Hf). right. exists a. split; [done|].
    apply elem_of_flags_of. by exists t.
Qed.

(** A state that extends another: more objects, more entries. *)
Lemma get_all_possible_flags_mono st st' :
  Forall (λ a, a < length (objects st)) (ALL_TARGETS st) →
  (∃ new, objects st' = objects st ++ new) →
  (∃ new, ALL_TARGETS st' = ALL_TARGETS st ++ new) →
  get_all_possible_flags st ⊆ get_all_possible_flags st'.
Proof.
  intros Hreg [newo Ho] [newr Hr] f.
  rewrite !elem_of_get_all_possible_flags. unfold get_all_targets.
  intros (a & t & Ha & Ht & Hf). exists a, t.
  split; [rewrite Hr; apply elem_of_app; by left|]. split; [|done].
  rewrite Ho. by apply lookup_app_l_Some.
Qed.

Lemma Target_init_registry k m d sc bt fl st :
  ∃ new,
    ALL_TARGETS (Target_init k m d sc bt fl st).2 = ALL_TARGETS st ++ new.
Proof.
  destruct (Target_init_registers k m d sc bt fl st) as (a & tail & -> & _).
  by eexists.
Qed.

Lemma Target_init_flags_registered k m d sc bt fl st f :
  f ∈ default ∅ fl →
  f ∈ get_all_possible_flags (Target_init k m d sc bt fl st).2.
Proof.
  intros Hf.
  destruct (Target_init_registers k m d sc bt fl st)
    as (a & tail & Hreg & (t & Ht & _ & HF)).
  apply elem_of_get_all_possible_flags. exists a, t.
  split; [|by rewrite HF]. unfold get_all_targets. rewrite Hreg.
  apply elem_of_app. right. by left.
Qed.

Section Registry_over_time.

Context {Path Args B V : Type}.
Variable execute_build_target :
  string → Path → bool → Args → B → result V * B.

Local Abbreviation step := (step Path Args B V execute_build_target).
Local Abbreviation reachable :=
  (reachable Path Args B V execute_build_target).

Lemma step_extends st st' :
  step st st' →
  (∃ new, objects st' = objects st ++ new)
  ∧ (∃ new, ALL_TARGETS st' = ALL_TARGETS st ++ new).
Proof.
  intros Hstep.
  destruct Hstep as [st targets m d sc bt fl _
                    |st build_target m d sc bt fl
                    |st delegate m d sc bt fl _
                    |st fuel context args self b r st' b' Hex];
    try (split; [apply Target_init_objects|apply Target_init_registry]).
  apply execute_preserves_state in Hex as ->.
  split; exists []; by rewrite app_nil_r.
Qed.

(** C8: [get_all_possible_flags] is the union of the sets of flags of the
    registered targets.  No operation removes an entry of the registry or a
    flag of the union, and the construction of a target with a flag that
    was not in the union makes the union strictly larger. *)
Theorem get_all_possible_flags_is_union st :
  (∀ f, f ∈ get_all_possible_flags st ↔
        ∃ a t, a ∈ get_all_targets st ∧ objects st !! a = Some t
               ∧ f ∈ flags t)
  ∧ (wf st → ∀ st', step st st' →
     (∃ new, get_all_targets st' = get_all_targets st ++ new)
     ∧ get_all_possible_flags st ⊆ get_all_possible_flags st')
  ∧ (wf st → ∀ k m d sc bt F f,
     f ∈ F → f ∉ get_all_possible_flags st →
     get_all_possible_flags st
     ⊂ get_all_possible_flags (Target_init k m d sc bt (Some F) st).2).
Proof.
  split; [apply elem_of_get_all_possible_flags|]. split.
  - intros (_ & Hreg & _) st' Hstep.
    destruct (step_extends _ _ Hstep) as [Ho Hr]. split; [done|].
    by apply get_all_possible_flags_mono.
  - intros (_ & Hreg & _) k m d sc bt F f Hf Hnew. split.
    + apply get_all_possible_flags_mono;
        [done|apply Target_init_objects|apply Target_init_registry].
    + intros Hsub. apply Hnew, Hsub.
      by apply Target_init_flags_registered.
Qed.

End Registry_over_time.

(** ** The scope of registered targets *)

Lemma Target_init_registered_scopes k m d sc bt fl st :
  wf st →
  (∀ a t, a ∈ ALL_TARGETS st → objects st !! a = Some t →
          scope t = LOCAL ∨ scope t = GLOBAL) →
  ∀ a t, a ∈ ALL_TARGETS (Target_init k m d sc bt fl st).2 →
         objects (Target_init k m d sc bt fl st).2 !! a = Some t →
         scope t = LOCAL ∨ scope t = GLOBAL.
Proof.
  intros (_ & Hreg & _) Hinv a t. rewrite Forall_forall in Hreg.
  destruct (decide (sc = BOTH)) as [->|Hsc].
  - rewrite Target_init_BOTH. cbn [snd objects ALL_TARGETS].
    rewrite elem_of_app, !elem_of_cons.
    intros [Ha|[->|[->|[]%elem_of_nil]]] Ht.
    + rewrite lookup_app_l in Ht by by apply Hreg. by apply (Hinv a).
    + rewrite lookup_app_r in Ht by lia.
      replace (S (length (objects st)) - length (objects st)) with 1 in Ht by lia.
      simplify_eq/=. by left.
    + rewrite lookup_app_r in Ht by lia.
      replace (S (S (length (objects st))) - length (objects st)) with 2 in Ht
        by lia.
      simplify_eq/=. by right.
  - rewrite Target_init_not_BOTH, Target_init_register_eq by done.
    cbn [snd objects ALL_TARGETS]. rewrite elem_of_app, list_elem_of_singleton.
    intros [Ha| ->] Ht.
    + rewrite lookup_app_l in Ht by by apply Hreg. by apply (Hinv a).
    + rewrite list_lookup_middle in Ht by done. simplify_eq/=.
      destruct sc; [by right|by left|done].
Qed.

Section Scopes.

Context {Path Args B V : Type}.
Variable execute_build_target :
  string → Path → bool → Args → B → result V * B.

Local Abbreviation step := (step Path Args B V execute_build_target).
Local Abbreviation reachable :=
  (reachable Path Args B V execute_build_target).

Lemma step_registered_scopes st st' :
  wf st → step st st' →
  (∀ a t, a ∈ ALL_TARGETS st → objects st !! a = Some t →
          scope t = LOCAL ∨ scope t = GLOBAL) →
  ∀ a t, a ∈ ALL_TARGETS st' → objects st' !! a = Some t →
         scope t = LOCAL ∨ scope t = GLOBAL.
Proof.
  intros Hwf Hstep Hinv.
  destruct Hstep as [st targets m d sc bt fl _
                    |st build_target m d sc bt fl
                    |st delegate m d sc bt fl _
                    |st fuel context args self b r st' b' Hex];
    try by apply Target_init_registered_scopes.
  by apply execute_preserves_state in Hex as ->.
Qed.

(** Between operations every registered target has the scope [LOCAL] or
    [GLOBAL]; a registered delegator called then writes one of the two into
    its delegate. *)
Lemma registered_scopes_between_operations st :
  reachable st →
  (∀ a t, a ∈ get_all_targets st → objects st !! a = Some t →
          scope t = LOCAL ∨ scope t = GLOBAL)
  ∧ (∀ self t delegate,
       self ∈ get_all_targets st → objects st !! self = Some t →
       kind t = DelegatorTarget delegate →
       ∀ a t', a ∈ get_all_targets st →
               objects (set_scope delegate (scope t) st) !! a = Some t' →
               scope t' = LOCAL ∨ scope t' = GLOBAL).
Proof.
  intros Hreach. unfold get_all_targets.
  assert (∀ a t, a ∈ ALL_TARGETS st → objects st !! a = Some t →
                 scope t = LOCAL ∨ scope t = GLOBAL) as Hinv.
  { unfold reachable in Hreach.
    cut (wf st ∧ ∀ a t, a ∈ ALL_TARGETS st → objects st !! a = Some t →
                        scope t = LOCAL ∨ scope t = GLOBAL); [by intros []|].
    eapply (rtc_ind_r
              (λ st, wf st ∧
                     ∀ a t, a ∈ ALL_TARGETS st → objects st !! a = Some t →
                            scope t = LOCAL ∨ scope t = GLOBAL) initial);
      [| |exact Hreach].
    - split; [apply wf_initial|]. by intros a t ?%elem_of_nil.
    - intros st1 st2 _ Hstep [Hwf IH]. split.
      + by eapply wf_step.
      + by eapply step_registered_scopes. }
  split; [done|].
  intros self t delegate Hself Ht Hk a t' Ha Ht'.
  destruct (decide (delegate = a)) as [->|Hne].
  - rewrite set_scope_lookup in Ht'.
    destruct (objects st !! a) as [d|]; simplify_eq/=. by apply (Hinv self).
  - rewrite set_scope_lookup_ne in Ht' by done. by apply (Hinv a).
Qed.

End Scopes.

(** ** The claims on examples *)

Lemma wf_example_both : wf example_both.
Proof. apply wf_Target_init; [apply wf_initial|constructor]. Qed.

Lemma wf_example_custom : wf example_custom.
Proof. apply wf_Target_init; [apply wf_example_both|constructor]. Qed.

Lemma wf_example_composite : wf example_composite.
Proof.
  apply wf_Target_init; [apply wf_example_custom|].
  apply (bool_decide_unpack _). by vm_compute.
Qed.

Lemma BuildSystemTarget_execute_calls_builder_witness :
  execute string (list string) (list call) () (recording_builder never_fails)
    1 "ctx" ["-j4"] 3 example_custom []
  = Some (Return (), example_custom, [mkCall "custom" "ctx" true ["-j4"]]).
Proof.
  assert (objects example_custom !! 3
          = Some (init_attributes (BuildSystemTarget "custom") "install" "desc"
                    GLOBAL None None)) as Ht by reflexivity.
  destruct (BuildSystemTarget_execute_calls_builder
              (recording_builder never_fails) 0 "ctx" ["-j4"] 3 example_custom
              [] _ "custom" Ht eq_refl) as (_ & _ & _ & Hex).
  exact Hex.
Defined.

Lemma DelegatorTarget_execute_restores_scope_witness :
  ∃ r st1 b',
    execute string (list string) (list call) () (recording_builder (fails_on ""))
      1 "ctx" [] 0 (set_scope 0 LOCAL example_both) [] = Some (r, st1, b')
    ∧ execute string (list string) (list call) () (recording_builder (fails_on ""))
        2 "ctx" [] 1 example_both [] = Some (r, set_scope 0 BOTH st1, b')
    ∧ scope <$> objects (set_scope 0 BOTH st1) !! 0 = Some BOTH
    ∧ set_scope 0 BOTH st1 = example_both
    ∧ (∀ fuel o,
         execute string (list string) (list call) ()
           (recording_builder (fails_on "")) fuel "ctx" [] 1 example_both []
         = Some o →
         o = (r, set_scope 0 BOTH st1, b'))
    ∧ objects (set_scope 0 LOCAL example_both) !! 0
      = Some (mkTarget "build" "desc" BUILD_NORMAL {["unit"]} LOCAL
                (BuildSystemTarget ""))
    ∧ (∀ a, a ≠ 0 →
            objects (set_scope 0 LOCAL example_both) !! a
            = objects example_both !! a)
    ∧ get_all_targets (set_scope 0 LOCAL example_both)
      = get_all_targets example_both.
Proof.
  exact (DelegatorTarget_execute_restores_scope
           (recording_builder (fails_on "")) "ctx" [] 1 example_both []
           (init_attributes (DelegatorTarget 0) "build" "desc" LOCAL None
              (Some {["unit"]}))
           0
           (init_attributes (BuildSystemTarget "") "build" "desc" BOTH None
              (Some {["unit"]}))
           (proj1 wf_example_both) eq_refl eq_refl eq_refl).
Defined.

(** The run of the witness above: the delegate raises, and its scope is
    [BOTH] again afterwards. *)
Example DelegatorTarget_execute_raising :
  execute string (list string) (list call) () (recording_builder (fails_on ""))
    2 "ctx" [] 1 example_both []
  = Some (Raise (BuilderException "boom"), example_both,
          [mkCall "" "ctx" false []]).
Proof. by vm_compute. Qed.

Lemma CompositeTarget_execute_in_order_witness :
  execute string (list string) (list call) ()
    (recording_builder (fails_on "custom")) 5 "ctx" [] 4 example_composite []
  = Some (Raise (BuilderException "boom"), example_composite,
          [mkCall "" "ctx" false []; mkCall "custom" "ctx" true []]).
Proof.
  assert (objects example_composite !! 4
          = Some (init_attributes (CompositeTarget [1; 3; 2]) "everything"
                    "desc" LOCAL None None)) as Ht by reflexivity.
  destruct (CompositeTarget_execute_in_order
              (recording_builder (fails_on "custom")) 4 "ctx" [] 4
              example_composite [] _ [1; 3; 2] Ht eq_refl)
    as (_ & Hraise & _).
  apply (Hraise [1] 3 [2] example_composite [mkCall "" "ctx" false []]).
  - reflexivity.
  - eapply children_return_cons; [by vm_compute|constructor].
  - by vm_compute.
Defined.

Lemma reachable_example_both :
  reachable string (list string) () () silent_builder example_both.
Proof. apply rtc_once. apply step_BuildSystemTarget. Qed.

(** C7 as the specification states it does not hold: the target of scope
    [BOTH] that the two registered delegators delegate to keeps the scope
    [BOTH]. *)
Lemma runtime_target_carries_BOTH :
  ¬ (∀ st, reachable string (list string) () () silent_builder st →
           ∀ a t, objects st !! a = Some t → scope t ≠ BOTH).
Proof.
  intros H. by apply (H example_both reachable_example_both 0 _ eq_refl).
Qed.

(** Under a delegator of scope [BOTH] that a composite calls, a registered
    target runs with the scope [BOTH]: the builder is asked for "all" and
    told that the call is not global. *)
Example registered_target_runs_as_BOTH :
  get_all_targets example_nested = [0; 2; 3; 4]
  ∧ execute string (list string) (list call) () (recording_builder never_fails)
      5 "ctx" [] 4 example_nested []
    = Some (Return (), example_nested, [mkCall "all" "ctx" false []]).
Proof. split; by vm_compute. Qed.

Lemma get_all_possible_flags_is_union_witness :
  get_all_possible_flags example_both ⊆ get_all_possible_flags example_custom
  ∧ get_all_possible_flags initial ⊂ get_all_possible_flags example_both.
Proof.
  split.
  - destruct (get_all_possible_flags_is_union silent_builder example_both)
      as (_ & Hstep & _).
    apply (Hstep wf_example_both example_custom).
    apply step_BuildSystemTarget.
  - destruct (get_all_possible_flags_is_union silent_builder initial)
      as (_ & _ & Hgrow).
    apply (Hgrow wf_initial (BuildSystemTarget "") "build" "desc" BOTH None
             {["unit"]} "unit").
    + by apply elem_of_singleton.
    + apply not_elem_of_empty.
Defined.


(** * Further properties of the code *)

(** ** What a construction adds *)

Lemma Target_init_new_entries k m d sc bt fl st :
  ∃ new,
    ALL_TARGETS (Target_init k m d sc bt fl st).2 = ALL_TARGETS st ++ new
    ∧ Forall (λ a, length (objects st) ≤ a) new.
Proof.
  destruct (decide (sc = BOTH)) as [->|Hsc].
  - rewrite Target_init_BOTH. eexists. split; [done|].
    repeat constructor; lia.
  - rewrite Target_init_not_BOTH, Target_init_register_eq by done.
    eexists. split; [done|]. by repeat constructor.
Qed.

Lemma lookup_extends (st st' : State) a t :
  (∃ new, objects st' = objects st ++ new) →
  objects st !! a = Some t → objects st' !! a = Some t.
Proof. intros [new ->] Ha. by apply lookup_app_l_Some. Qed.

Lemma lookup_extends_lt (st st' : State) a :
  (∃ new, objects st' = objects st ++ new) →
  a < length (objects st) → objects st' !! a = objects st !! a.
Proof. intros [new ->] Ha. by apply lookup_app_l. Qed.

Section Operations.

Context {Path Args B V : Type}.
Variable execute_build_target :
  string → Path → bool → Args → B → result V * B.

Local Abbreviation execute := (execute Path Args B V execute_build_target).
Local Abbreviation step := (step Path Args B V execute_build_target).
Local Abbreviation reachable :=
  (reachable Path Args B V execute_build_target).

Lemma step_new_entries st st' :
  step st st' →
  (∃ new, ALL_TARGETS st' = ALL_TARGETS st ++ new
          ∧ Forall (λ a, length (objects st) ≤ a) new)
  ∧ length (objects st) ≤ length (objects st').
Proof.
  intros Hstep. split.
  - destruct Hstep as [st targets m d sc bt fl _
                      |st build_target m d sc bt fl
                      |st delegate m d sc bt fl _
                      |st fuel context args self b r st' b' Hex];
      try apply Target_init_new_entries.
    apply execute_preserves_state in Hex as ->.
    exists []. by rewrite app_nil_r.
  - destruct (step_extends execute_build_target _ _ Hstep) as [[new ->] _].
    rewrite length_app. lia.
Qed.

(** X1: a call of [execute] that returns or raises, on a target of any
    class, leaves the store and the registry as it found them: the only
    assignment is the one of [DelegatorTarget.execute], which undoes it. *)
Theorem execute_leaves_store_unchanged
    fuel context args self st b r st' b' :
  execute fuel context args self st b = Some (r, st', b') →
  st' = st
  ∧ get_all_targets st' = get_all_targets st
  ∧ ∀ a, objects st' !! a = objects st !! a.
Proof.
  intros Hex. apply execute_preserves_state in Hex as ->. by repeat split.
Qed.

(** X2: in a reachable state every call of [execute] on an existing target
    completes, with the same result for every bound on the nesting of calls
    above the reference of the target: delegation and composition cannot
    loop. *)
Theorem execute_completes context args self st b :
  reachable st →
  self < length (objects st) →
  ∃ r b', ∀ fuel, self < fuel →
                  execute fuel context args self st b = Some (r, st, b').
Proof.
  intros Hreach Hself.
  destruct (reachable_wf execute_build_target st Hreach) as [Hwf _].
  destruct (execute_terminates execute_build_target context args self st b
              Hwf Hself) as (r & b' & Hex).
  exists r, b'. intros fuel Hfuel. eapply execute_fuel_mono; [done|lia].
Qed.

(** X15: in every reachable state the registry lists existing objects, each
    once, and the children of a composite and the delegate of a delegator
    are objects constructed before it, so that no target reaches itself. *)
Theorem reachable_states_well_formed st :
  reachable st →
  NoDup (get_all_targets st)
  ∧ (∀ a, a ∈ get_all_targets st → a < length (objects st))
  ∧ (∀ a t, objects st !! a = Some t →
            match kind t with
            | CompositeTarget targets => ∀ c, c ∈ targets → c < a
            | BuildSystemTarget _ => True
            | DelegatorTarget delegate => delegate < a
            end).
Proof.
  intros Hreach.
  destruct (reachable_wf execute_build_target st Hreach) as (Hrefs & Hreg & Hnd).
  split; [done|]. split; [by apply Forall_forall|].
  intros a t Ha. specialize (Hrefs a t Ha).
  destruct (kind t) as [targets|build_target|delegate]; simpl in Hrefs.
  - intros c Hc. rewrite Forall_forall in Hrefs. by apply Hrefs.
  - done.
  - by rewrite Forall_singleton in Hrefs.
Qed.

(** X16: no operation changes an attribute of an existing target, its scope
    included, between calls, nor removes or reorders entries of the
    registry. *)
Theorem operations_keep_existing_targets st st' :
  rtc step st st' →
  (∀ a t, objects st !! a = Some t → objects st' !! a = Some t)
  ∧ ∃ new, get_all_targets st' = get_all_targets st ++ new.
Proof.
  intros Hsteps. unfold get_all_targets.
  eapply (rtc_ind_r
            (λ st', (∀ a t, objects st !! a = Some t → objects st' !! a = Some t)
                    ∧ ∃ new, ALL_TARGETS st' = ALL_TARGETS st ++ new) st);
    [| |exact Hsteps].
  - split; [done|]. exists []. by rewrite app_nil_r.
  - intros st1 st2 _ Hstep [Hobj [new Hreg]].
    destruct (step_extends execute_build_target _ _ Hstep) as [Ho [new' Hr]].
    split.
    + intros a t Ha. eapply lookup_extends; [done|]. by apply Hobj.
    + exists (new ++ new'). by rewrite Hr, Hreg, (assoc_L (++)).
Qed.

(** X17: a target is registered when it is constructed or never: an
    existing object that is not in the registry is in the registry of no
    later state. *)
Theorem registered_only_at_construction st st' a :
  rtc step st st' →
  a < length (objects st) →
  a ∉ get_all_targets st →
  a ∉ get_all_targets st'.
Proof.
  intros Hsteps Ha Hnot. unfold get_all_targets in *.
  cut (length (objects st) ≤ length (objects st') ∧ a ∉ ALL_TARGETS st');
    [by intros []|].
  eapply (rtc_ind_r
            (λ st', length (objects st) ≤ length (objects st')
                    ∧ a ∉ ALL_TARGETS st') st); [| |exact Hsteps].
  - done.
  - intros st1 st2 _ Hstep [Hlen IH].
    destruct (step_new_entries _ _ Hstep) as [(new & -> & Hnew) Hlen'].
    split; [lia|]. rewrite elem_of_app. intros [?|Hin]; [done|].
    rewrite Forall_forall in Hnew. specialize (Hnew _ Hin). lia.
Qed.

End Operations.

(** ** Delegation and composition *)

Lemma lookup_kind_set_scope st a s x k :
  (∃ t, objects (set_scope a s st) !! x = Some t ∧ kind t = k)
  ↔ (∃ t, objects st !! x = Some t ∧ kind t = k).
Proof.
  destruct (decide (a = x)) as [->|Hne].
  - rewrite set_scope_lookup. split.
    + intros (t & Ht & Hk). destruct (objects st !! x) as [t0|]; [|done].
      exists t0. by simplify_eq/=.
    + intros (t & -> & Hk). by exists (with_scope s t).
  - by rewrite set_scope_lookup_ne.
Qed.

Lemma delegation_path_set_scope st a s self path target :
  delegation_path (set_scope a s st) self path target
  ↔ delegation_path st self path target.
Proof.
  revert self. induction path as [|next path IH]; intros self; [done|].
  cbn [delegation_path]. rewrite IH.
  split; intros [Hself Hpath]; (split; [|done]);
    by apply (lookup_kind_set_scope st a s).
Qed.

Lemma delegation_path_is_Some st self path target :
  delegation_path st self path target →
  is_Some (objects st !! target) → is_Some (objects st !! self).
Proof.
  destruct path as [|next path]; simpl.
  - by intros ->.
  - intros [(t & Ht & _) _] _. by exists t.
Qed.

Section Delegation_and_composition.

Context {Path Args B V : Type}.
Variable execute_build_target :
  string → Path → bool → Args → B → result V * B.

Local Abbreviation execute := (execute Path Args B V execute_build_target).

(** The equations of [execute], by the class of the target. *)
Lemma execute_BuildSystemTarget fuel context args self st b t build_target :
  objects st !! self = Some t →
  kind t = BuildSystemTarget build_target →
  execute (S fuel) context args self st b
  = Some (BuildSystemTarget_execute Path Args B V execute_build_target
            t build_target context args st b).
Proof. intros Ht Hk. simpl. by rewrite Ht, Hk. Qed.

Lemma execute_CompositeTarget fuel context args self st b t targets :
  objects st !! self = Some t →
  kind t = CompositeTarget targets →
  execute (S fuel) context args self st b
  = CompositeTarget_execute B (execute fuel context args) targets st b.
Proof. intros Ht Hk. simpl. by rewrite Ht, Hk. Qed.

Lemma execute_DelegatorTarget fuel context args self st b t delegate :
  objects st !! self = Some t →
  kind t = DelegatorTarget delegate →
  execute (S fuel) context args self st b
  = DelegatorTarget_execute B (execute fuel context args) t delegate st b.
Proof. intros Ht Hk. simpl. by rewrite Ht, Hk. Qed.

Lemma BuildSystemTarget_execute_effective_name t build_target context args st b :
  BuildSystemTarget_execute Path Args B V execute_build_target
    t build_target context args st b
  = (match (execute_build_target (effective_name build_target (scope t))
              context (bool_decide (scope t = GLOBAL)) args b).1 with
     | Return _ => Return ()
     | Raise e => Raise e
     end, st,
     (execute_build_target (effective_name build_target (scope t))
        context (bool_decide (scope t = GLOBAL)) args b).2).
Proof.
  unfold BuildSystemTarget_execute, effective_name.
  destruct (decide (build_target = "")) as [->|Hne].
  - destruct (scope t); simpl;
      by destruct (execute_build_target _ _ _ _ _) as [[v|e] b1].
  - rewrite (bool_decide_eq_true_2 (build_target ≠ "")) by done. simpl.
    by destruct (execute_build_target _ _ _ _ _) as [[v|e] b1].
Qed.

(** X4: a build-system target reached through any number of delegators
    runs under the scope of the outermost one: each delegator writes its
    own, just overridden, scope into the next.  The builder is called once,
    with the build target and the flag resolved from the scope of the target
    [execute] was called on, and every scope is as before afterwards. *)
Theorem delegation_runs_under_outer_scope
    context args path self target st b t bst build_target :
  delegation_path st self path target →
  objects st !! self = Some t →
  objects st !! target = Some bst →
  kind bst = BuildSystemTarget build_target →
  ∀ fuel, length path < fuel →
    execute fuel context args self st b
    = Some (match (execute_build_target
                     (effective_name build_target (scope t)) context
                     (bool_decide (scope t = GLOBAL)) args b).1 with
            | Return _ => Return ()
            | Raise e => Raise e
            end, st,
            (execute_build_target
               (effective_name build_target (scope t)) context
               (bool_decide (scope t = GLOBAL)) args b).2).
Proof.
  revert self st t bst.
  induction path as [|next path IH];
    intros self st t bst Hpath Ht Hbst Hk fuel Hfuel;
    (destruct fuel as [|fuel]; [simpl in Hfuel; lia|]).
  - simpl in Hpath. subst target. assert (t = bst) as -> by congruence.
    rewrite (execute_BuildSystemTarget _ _ _ _ _ _ _ _ Ht Hk).
    by rewrite BuildSystemTarget_execute_effective_name.
  - destruct Hpath as [(t0 & Ht0 & Hk0) Hpath].
    assert (t0 = t) as -> by congruence.
    rewrite (execute_DelegatorTarget _ _ _ _ _ _ _ _ Ht Hk0).
    destruct (delegation_path_is_Some _ _ _ _ Hpath) as [d Hd]; [by eexists|].
    unfold DelegatorTarget_execute. rewrite Hd.
    assert (∃ bst', objects (set_scope next (scope t) st) !! target = Some bst'
                    ∧ kind bst' = BuildSystemTarget build_target)
      as (bst' & Hbst' & Hk').
    { apply lookup_kind_set_scope. by exists bst. }
    rewrite (IH next (set_scope next (scope t) st) (with_scope (scope t) d) bst').
    + simpl. by rewrite set_scope_restore.
    + by apply delegation_path_set_scope.
    + by rewrite set_scope_lookup, Hd.
    + done.
    + done.
    + simpl in Hfuel. lia.
Qed.

(** The loop of a composite over a concatenation. *)
Lemma CompositeTarget_execute_app
    (f : addr → State → B → option (outcome B)) l1 l2 st b :
  CompositeTarget_execute B f (l1 ++ l2) st b
  = match CompositeTarget_execute B f l1 st b with
    | Some (Return _, st', b') => CompositeTarget_execute B f l2 st' b'
    | Some (Raise e, st', b') => Some (Raise e, st', b')
    | None => None
    end.
Proof.
  revert st b. induction l1 as [|c l1 IH]; intros st b; [done|].
  simpl. destruct (f c st b) as [[[[u|e] st1] b1]|]; [apply IH|done..].
Qed.

Lemma CompositeTarget_execute_agree
    (f g : addr → State → B → option (outcome B)) l st :
  (∀ c b, c ∈ l → f c st b = g c st b) →
  (∀ c b r st' b', f c st b = Some (r, st', b') → st' = st) →
  ∀ b, CompositeTarget_execute B f l st b = CompositeTarget_execute B g l st b.
Proof.
  intros Hfg Hf. induction l as [|c l IH]; intros b; [done|].
  simpl. rewrite <- (Hfg c b) by by left.
  destruct (f c st b) as [[[[u|e] st1] b1]|] eqn:Hc; [|done..].
  apply Hf in Hc as ->. apply IH. intros c' b' Hc'. apply Hfg. by right.
Qed.

Lemma execute_enough_fuel context args self st b n m :
  wf_refs st → self < length (objects st) → self < n → self < m →
  execute n context args self st b = execute m context args self st b.
Proof.
  intros Hwf Hself Hn Hm.
  destruct (execute_terminates execute_build_target context args self st b
              Hwf Hself) as (r & b' & Hex).
  rewrite (execute_fuel_mono _ _ n _ _ _ _ _ _ Hex) by lia.
  by rewrite (execute_fuel_mono _ _ m _ _ _ _ _ _ Hex) by lia.
Qed.

(** X5: a composite that has a composite among its children runs as the
    composite of the flattened list of children: same calls of the builder
    in the same order, same result. *)
Theorem nested_composite_flattens
    context args nested flat inner pre post l st b tn tf ti :
  wf_refs st →
  objects st !! nested = Some tn →
  kind tn = CompositeTarget (pre ++ inner :: post) →
  objects st !! inner = Some ti →
  kind ti = CompositeTarget l →
  objects st !! flat = Some tf →
  kind tf = CompositeTarget (pre ++ l ++ post) →
  ∀ fuel, nested < fuel → flat < fuel →
    execute fuel context args nested st b
    = execute fuel context args flat st b.
Proof.
  intros Hwf Hn Hkn Hi Hki Hf Hkf fuel Hfn Hff.
  destruct fuel as [|fuel]; [lia|].
  rewrite (execute_CompositeTarget _ _ _ _ _ _ _ _ Hn Hkn).
  rewrite (execute_CompositeTarget _ _ _ _ _ _ _ _ Hf Hkf).
  rewrite !CompositeTarget_execute_app.
  destruct (CompositeTarget_execute B (execute fuel context args) pre st b)
    as [[[[u|e] st1] b1]|] eqn:Hpre; [|done..].
  apply CompositeTarget_execute_preserves_state in Hpre as ->;
    [|intros *; apply execute_preserves_state].
  assert (inner < nested) as Hlt.
  { pose proof (Hwf _ _ Hn) as Hrefs. rewrite Hkn in Hrefs. simpl in Hrefs.
    rewrite Forall_forall in Hrefs. apply Hrefs. set_solver. }
  change (CompositeTarget_execute B (execute fuel context args)
            (inner :: post) st b1)
    with (match execute fuel context args inner st b1 with
          | None => None
          | Some (Return _, st', b') =>
              CompositeTarget_execute B (execute fuel context args) post st' b'
          | Some (Raise e, st', b') => Some (Raise e, st', b')
          end).
  destruct fuel as [|fuel]; [lia|].
  rewrite (execute_CompositeTarget _ _ _ _ _ _ _ _ Hi Hki).
  rewrite (CompositeTarget_execute_agree
             (execute fuel context args) (execute (S fuel) context args) l st).
  - rewrite CompositeTarget_execute_app.
    by destruct (CompositeTarget_execute B _ l st b1) as [[[[u1|e1] st2] b2]|].
  - intros c b' Hc.
    pose proof (Hwf _ _ Hi) as Hrefs. rewrite Hki in Hrefs. simpl in Hrefs.
    rewrite Forall_forall in Hrefs. specialize (Hrefs c Hc).
    apply execute_enough_fuel; [done| |lia..].
    apply lookup_lt_Some in Hi. lia.
  - intros *. apply execute_preserves_state.
Qed.

End Delegation_and_composition.

(** ** Lookup and registration *)

Lemma get_target_Return_inv set_iter st m F a :
  get_target set_iter st m F = Return a →
  filter (λ a, matches st m F a = true) (ALL_TARGETS st) = [a].
Proof.
  unfold get_target, get_all_targets.
  destruct (filter _ _) as [|x [|y l]]; [done| |done]. by intros [= ->].
Qed.

Lemma get_target_same_matching set_iter st st' m F :
  filter (λ a, matches st' m F a = true) (ALL_TARGETS st')
  = filter (λ a, matches st m F a = true) (ALL_TARGETS st) →
  get_target set_iter st' m F = get_target set_iter st m F.
Proof. unfold get_target, get_all_targets. by intros ->. Qed.

Lemma filter_ext_Forall {A} (P Q : A → Prop)
    `{!∀ x, Decision (P x)} `{!∀ x, Decision (Q x)} (l : list A) :
  Forall (λ x, P x ↔ Q x) l → filter P l = filter Q l.
Proof.
  induction 1 as [|x l Hx _ IH]; [done|].
  rewrite !filter_cons, IH.
  destruct (decide (P x)) as [HP|HP], (decide (Q x)) as [HQ|HQ];
    [done|by destruct HQ; apply Hx|by destruct HP; apply Hx|done].
Qed.

Lemma matches_lookup st m F a t :
  objects st !! a = Some t →
  matches st m F a = bool_decide (mnemonic t = m) && bool_decide (F = flags t).
Proof. unfold matches. intros ->. by destruct t. Qed.

Lemma matches_extends st st' m F a :
  (∃ new, objects st' = objects st ++ new) →
  a < length (objects st) →
  matches st' m F a = matches st m F a.
Proof.
  intros Hext Ha. unfold matches. by rewrite (lookup_extends_lt st st').
Qed.

Lemma filter_matches_extends st st' m F :
  Forall (λ a, a < length (objects st)) (ALL_TARGETS st) →
  (∃ new, objects st' = objects st ++ new) →
  filter (λ a, matches st' m F a = true) (ALL_TARGETS st)
  = filter (λ a, matches st m F a = true) (ALL_TARGETS st).
Proof.
  intros Hreg Hext. apply filter_ext_Forall.
  eapply Forall_impl; [exact Hreg|]. intros a Ha. simpl.
  by rewrite (matches_extends st st').
Qed.

Lemma filter_matches_none st m F :
  (∀ a, a ∈ ALL_TARGETS st → ¬ has_identity st a m F) →
  filter (λ a, matches st m F a = true) (ALL_TARGETS st) = [].
Proof.
  intros Hnone. apply elem_of_nil_inv. intros x [Hm Hx]%list_elem_of_filter.
  by apply (Hnone x Hx), matches_has_identity.
Qed.

Lemma global_flags_union fl : global_flags fl = {["-all"]} ∪ default ∅ fl.
Proof.
  unfold global_flags, truthy. destruct fl as [f|]; simpl.
  - case_bool_decide as Hf; [done|].
    assert (f = ∅) as -> by (by destruct (decide (f = ∅))).
    by rewrite (right_id_L ∅ (∪)).
  - by rewrite (right_id_L ∅ (∪)).
Qed.

(** X6: what [get_target] returns or raises tells the number of matches.  It
    returns only a registered target with the mnemonic and exactly the flags
    asked for, and then no other registered target has them; it raises
    [NoSuchTargetException], with the message built from the display string,
    only when no registered target has them; and it fails the assertion only
    when two entries of the registry have them. *)
Theorem get_target_sound set_iter st m F :
  (∀ a, get_target set_iter st m F = Return a →
        a ∈ get_all_targets st
        ∧ has_identity st a m F
        ∧ ∀ a', a' ∈ get_all_targets st → has_identity st a' m F → a' = a)
  ∧ (∀ msg, get_target set_iter st m F = Raise (NoSuchTargetException msg) →
            msg = "Could not find target '"
                  +:+ config_string m (set_iter F) +:+ "'"
            ∧ ∀ a, a ∈ get_all_targets st → ¬ has_identity st a m F)
  ∧ (∀ msg, get_target set_iter st m F = Raise (AssertionError msg) →
            ∃ i j a a',
              i ≠ j
              ∧ get_all_targets st !! i = Some a
              ∧ get_all_targets st !! j = Some a'
              ∧ has_identity st a m F ∧ has_identity st a' m F)
  ∧ (∀ msg, get_target set_iter st m F ≠ Raise (BuilderException msg)).
Proof.
  unfold get_all_targets. split; [|split; [|split]].
  - intros a Hf%get_target_Return_inv.
    assert (∀ x, x ∈ ALL_TARGETS st → has_identity st x m F → x = a) as Huniq.
    { intros x Hx Hid. apply list_elem_of_singleton. rewrite <- Hf.
      apply list_elem_of_filter. split; [by apply matches_has_identity|done]. }
    assert (a ∈ filter (λ a, matches st m F a = true) (ALL_TARGETS st)) as Ha
      by (rewrite Hf; by left).
    apply list_elem_of_filter in Ha as [Hm Ha].
    split; [done|]. split; [by apply matches_has_identity|done].
  - intros msg Hget. unfold get_target, get_all_targets in Hget.
    destruct (filter _ _) as [|x [|y l]] eqn:Hf; [|done..].
    split; [by simplify_eq|]. intros a Ha Hid.
    apply matches_has_identity in Hid.
    assert (a ∈ filter (λ a, matches st m F a = true) (ALL_TARGETS st)) as Hin
      by (by apply list_elem_of_filter).
    rewrite Hf in Hin. by apply elem_of_nil in Hin.
  - intros msg Hget. unfold get_target, get_all_targets in Hget.
    destruct (filter _ _) as [|x [|y r]] eqn:Hf; [done..|].
    assert (x ∈ filter (λ a, matches st m F a = true) (ALL_TARGETS st)) as Hx
      by (rewrite Hf; set_solver).
    assert (y ∈ filter (λ a, matches st m F a = true) (ALL_TARGETS st)) as Hy
      by (rewrite Hf; set_solver).
    apply list_elem_of_filter in Hx as [Hx _], Hy as [Hy _].
    apply matches_has_identity in Hx, Hy.
    apply filter_two_split in Hf as (l1 & l2 & l3 & Hl).
    exists (length l1), (length l1 + S (length l2)), x, y.
    split; [lia|]. rewrite Hl. split; [by apply list_lookup_middle|].
    split; [|done]. rewrite lookup_app_r by lia.
    replace (length l1 + S (length l2) - length l1) with (S (length l2)) by lia.
    simpl. by apply list_lookup_middle.
  - intros msg. unfold get_target, get_all_targets.
    by destruct (filter _ _) as [|x [|y l]].
Qed.

(** X7: a target constructed with a scope other than [BOTH] and an identity
    that no registered target has is what a lookup of that identity
    returns next, with the attributes it was given, the defaults filled in. *)
Theorem lookup_finds_new_target set_iter k m d sc bt fl st :
  wf st →
  sc ≠ BOTH →
  (∀ a, a ∈ get_all_targets st → ¬ has_identity st a m (default ∅ fl)) →
  get_target set_iter (Target_init k m d sc bt fl st).2 m (default ∅ fl)
  = Return (Target_init k m d sc bt fl st).1
  ∧ objects (Target_init k m d sc bt fl st).2
      !! (Target_init k m d sc bt fl st).1
    = Some (mkTarget m d (default BUILD_NORMAL bt) (default ∅ fl) sc k).
Proof.
  intros (_ & Hreg & _) Hsc Hnone.
  assert (objects (Target_init k m d sc bt fl st).2
            !! (Target_init k m d sc bt fl st).1
          = Some (init_attributes k m d sc bt fl)) as Hself.
  { rewrite Target_init_not_BOTH, Target_init_register_eq by done.
    by apply list_lookup_middle. }
  split; [|by destruct bt, fl].
  apply get_target_one.
  assert (ALL_TARGETS (Target_init k m d sc bt fl st).2
          = ALL_TARGETS st ++ [(Target_init k m d sc bt fl st).1]) as ->
    by (by rewrite Target_init_not_BOTH, Target_init_register_eq).
  rewrite filter_app, filter_matches_extends, (filter_matches_none st)
    by (done || apply Target_init_objects).
  rewrite filter_cons_True; [done|].
  rewrite (matches_lookup _ _ _ _ _ Hself). simpl.
  by rewrite !bool_decide_eq_true_2 by by destruct fl.
Qed.

Lemma Target_init_BOTH_lookups k m d bt fl st :
  objects (Target_init k m d BOTH bt fl st).2 !! S (length (objects st))
  = Some (mkTarget m d (default BUILD_NORMAL bt) (default ∅ fl) LOCAL
            (DelegatorTarget (length (objects st))))
  ∧ objects (Target_init k m d BOTH bt fl st).2 !! S (S (length (objects st)))
    = Some (mkTarget m d (default BUILD_NORMAL bt)
              ({["-all"]} ∪ default ∅ fl) GLOBAL
              (DelegatorTarget (length (objects st)))).
Proof.
  rewrite Target_init_BOTH. cbn [snd objects]. split.
  - rewrite lookup_app_r by lia.
    replace (S (length (objects st)) - length (objects st)) with 1 by lia.
    by destruct bt, fl.
  - rewrite lookup_app_r by lia.
    replace (S (S (length (objects st))) - length (objects st)) with 2 by lia.
    simpl. unfold init_attributes. rewrite global_flags_union. by destruct bt.
Qed.

(** X8: a target of scope [BOTH] whose flags do not contain "-all", with
    identities that no registered target has, is found afterwards as its
    local delegator under its own flags and as its global delegator under
    its flags plus "-all"; both delegate to it and have its mnemonic,
    description and build type; and no lookup returns the target itself. *)
Theorem lookup_finds_delegators_of_BOTH set_iter k m d bt fl st :
  wf st →
  "-all" ∉ default ∅ fl →
  (∀ a, a ∈ get_all_targets st → ¬ has_identity st a m (default ∅ fl)) →
  (∀ a, a ∈ get_all_targets st →
        ¬ has_identity st a m ({["-all"]} ∪ default ∅ fl)) →
  get_target set_iter (Target_init k m d BOTH bt fl st).2 m (default ∅ fl)
  = Return (S (Target_init k m d BOTH bt fl st).1)
  ∧ objects (Target_init k m d BOTH bt fl st).2
      !! S (Target_init k m d BOTH bt fl st).1
    = Some (mkTarget m d (default BUILD_NORMAL bt) (default ∅ fl) LOCAL
              (DelegatorTarget (Target_init k m d BOTH bt fl st).1))
  ∧ get_target set_iter (Target_init k m d BOTH bt fl st).2 m
      ({["-all"]} ∪ default ∅ fl)
    = Return (S (S (Target_init k m d BOTH bt fl st).1))
  ∧ objects (Target_init k m d BOTH bt fl st).2
      !! S (S (Target_init k m d BOTH bt fl st).1)
    = Some (mkTarget m d (default BUILD_NORMAL bt)
              ({["-all"]} ∪ default ∅ fl) GLOBAL
              (DelegatorTarget (Target_init k m d BOTH bt fl st).1))
  ∧ ∀ m' F', get_target set_iter (Target_init k m d BOTH bt fl st).2 m' F'
             ≠ Return (Target_init k m d BOTH bt fl st).1.
Proof.
  intros (_ & Hreg & _) Hdash Hnone Hnone'.
  destruct (Target_init_BOTH_lookups k m d bt fl st) as [Hlocal Hglobal].
  assert ((Target_init k m d BOTH bt fl st).1 = length (objects st)) as ->
    by (by rewrite Target_init_BOTH).
  assert (ALL_TARGETS (Target_init k m d BOTH bt fl st).2
          = ALL_TARGETS st
            ++ [S (length (objects st)); S (S (length (objects st)))]) as Hall
    by (by rewrite Target_init_BOTH).
  assert (default ∅ fl ≠ {["-all"]} ∪ default ∅ fl) as Hne.
  { intros Heq. apply Hdash. rewrite Heq.
    apply elem_of_union_l. by apply elem_of_singleton. }
  split; [|split; [done|split; [|split; [done|]]]].
  - apply get_target_one. rewrite Hall.
    rewrite filter_app, filter_matches_extends, (filter_matches_none st)
      by (done || apply Target_init_objects).
    rewrite filter_cons_True, filter_cons_False; [done| |].
    + rewrite (matches_lookup _ _ _ _ _ Hglobal). simpl.
      by rewrite (bool_decide_eq_false_2 (default ∅ fl = _)), andb_false_r.
    + rewrite (matches_lookup _ _ _ _ _ Hlocal). simpl.
      by rewrite !bool_decide_eq_true_2.
  - apply get_target_one. rewrite Hall.
    rewrite filter_app, filter_matches_extends, (filter_matches_none st)
      by (done || apply Target_init_objects).
    rewrite filter_cons_False, filter_cons_True; [done| |].
    + rewrite (matches_lookup _ _ _ _ _ Hglobal). simpl.
      by rewrite !bool_decide_eq_true_2.
    + rewrite (matches_lookup _ _ _ _ _ Hlocal). simpl.
      by rewrite (bool_decide_eq_false_2 (_ = default ∅ fl)), andb_false_r.
  - intros m' F' Hf%get_target_Return_inv.
    assert (length (objects st)
              ∈ filter (λ a, matches (Target_init k m d BOTH bt fl st).2
                               m' F' a = true)
                  (ALL_TARGETS (Target_init k m d BOTH bt fl st).2)) as Hin
      by (rewrite Hf; by left).
    apply list_elem_of_filter in Hin as [_ Hin]. rewrite Hall in Hin.
    apply elem_of_app in Hin as [Hin|Hin].
    + rewrite Forall_forall in Hreg. specialize (Hreg _ Hin). lia.
    + apply elem_of_cons in Hin as [?|Hin]; [lia|].
      apply list_elem_of_singleton in Hin. lia.
Qed.

(** X9: a target of scope [BOTH] whose flags already contain "-all" is in
    conflict with itself: its two delegators are registered with the same
    mnemonic and the same flags, and the lookup of that identity fails the
    assertion, whatever the registry held before. *)
Theorem BOTH_with_dash_all_conflicts set_iter k m d bt F st :
  "-all" ∈ F →
  get_target set_iter (Target_init k m d BOTH bt (Some F) st).2 m F
  = Raise (AssertionError "Conflicting targets specified in code").
Proof.
  intros Hdash.
  destruct (Target_init_BOTH_lookups k m d bt (Some F) st)
    as [Hlocal Hglobal].
  assert ({["-all"]} ∪ F = F) as HF
    by (by apply subseteq_union_1_L, singleton_subseteq_l).
  change (default ∅ (Some F)) with F in Hlocal, Hglobal.
  rewrite HF in Hglobal.
  apply (get_target_conflict set_iter _ m F
           (length (ALL_TARGETS st)) (S (length (ALL_TARGETS st)))
           (S (length (objects st))) (S (S (length (objects st))))).
  - lia.
  - rewrite Target_init_BOTH. by apply list_lookup_middle.
  - rewrite Target_init_BOTH. cbn [snd ALL_TARGETS].
    rewrite lookup_app_r by lia.
    by replace (S (length (ALL_TARGETS st)) - length (ALL_TARGETS st))
      with 1 by lia.
  - eexists. split; [exact Hlocal|done].
  - eexists. split; [exact Hglobal|done].
Qed.

(** X10: the construction of a target leaves the result of every lookup
    of an identity other than the ones it registers as it was. *)
Theorem construction_keeps_other_lookups set_iter k m d sc bt fl st m' F' :
  wf st →
  (m', F') ≠ (m, default ∅ fl) →
  (sc = BOTH → (m', F') ≠ (m, {["-all"]} ∪ default ∅ fl)) →
  get_target set_iter (Target_init k m d sc bt fl st).2 m' F'
  = get_target set_iter st m' F'.
Proof.
  intros (_ & Hreg & _) Hne Hne'. apply get_target_same_matching.
  destruct (decide (sc = BOTH)) as [->|Hsc].
  - destruct (Target_init_BOTH_lookups k m d bt fl st) as [Hlocal Hglobal].
    assert (ALL_TARGETS (Target_init k m d BOTH bt fl st).2
            = ALL_TARGETS st
              ++ [S (length (objects st)); S (S (length (objects st)))]) as ->
      by (by rewrite Target_init_BOTH).
    rewrite filter_app, filter_matches_extends
      by (done || apply Target_init_objects).
    rewrite !filter_cons_False; [by rewrite app_nil_r| |].
    + rewrite (matches_lookup _ _ _ _ _ Hglobal). simpl.
      intros [Hm HF]%andb_prop. apply bool_decide_eq_true in Hm, HF.
      apply Hne'; [done|]. by subst.
    + rewrite (matches_lookup _ _ _ _ _ Hlocal). simpl.
      intros [Hm HF]%andb_prop. apply bool_decide_eq_true in Hm, HF.
      apply Hne. by subst.
  - rewrite Target_init_not_BOTH, Target_init_register_eq by done.
    cbn [snd ALL_TARGETS].
    rewrite filter_app, filter_matches_extends by (done || by eexists).
    rewrite filter_cons_False; [by rewrite app_nil_r|].
    rewrite (matches_lookup _ _ _ _
               (init_attributes k m d sc bt fl))
      by (by apply list_lookup_middle).
    simpl. intros [Hm HF]%andb_prop. apply bool_decide_eq_true in Hm, HF.
    apply Hne. subst. by destruct fl.
Qed.

(** ** The flags in use, the display string and the scope *)

Lemma flags_of_extends st st' a :
  (∃ new, objects st' = objects st ++ new) →
  a < length (objects st) →
  flags_of st' a = flags_of st a.
Proof. intros Hext Ha. unfold flags_of. by rewrite (lookup_extends_lt st st'). Qed.

Lemma flags_of_lookup st a t :
  objects st !! a = Some t → flags_of st a = flags t.
Proof. unfold flags_of. by intros ->. Qed.

Lemma foldl_flags_extends st st' l :
  Forall (λ a, a < length (objects st)) l →
  (∃ new, objects st' = objects st ++ new) →
  ∀ acc, foldl (λ agg item, agg ∪ flags_of st' item) acc l
         = foldl (λ agg item, agg ∪ flags_of st item) acc l.
Proof.
  intros Hl Hext. induction Hl as [|a l Ha _ IH]; intros acc; [done|].
  simpl. by rewrite IH, (flags_of_extends st st').
Qed.

(** X11: the construction of a target adds to the flags in use exactly the
    flags it was given and, for the scope [BOTH], the flag "-all". *)
Theorem get_all_possible_flags_after_construction k m d sc bt fl st :
  wf st →
  get_all_possible_flags (Target_init k m d sc bt fl st).2
  = get_all_possible_flags st ∪ default ∅ fl
    ∪ (if decide (sc = BOTH) then {["-all"]} else ∅).
Proof.
  intros (_ & Hreg & _). unfold get_all_possible_flags, get_all_targets.
  destruct (decide (sc = BOTH)) as [->|Hsc].
  - destruct (Target_init_BOTH_lookups k m d bt fl st) as [Hlocal Hglobal].
    assert (ALL_TARGETS (Target_init k m d BOTH bt fl st).2
            = ALL_TARGETS st
              ++ [S (length (objects st)); S (S (length (objects st)))]) as ->
      by (by rewrite Target_init_BOTH).
    rewrite foldl_app, (foldl_flags_extends st _ (ALL_TARGETS st))
      by (done || apply Target_init_objects).
    cbn [foldl].
    rewrite (flags_of_lookup _ _ _ Hlocal), (flags_of_lookup _ _ _ Hglobal).
    cbn [flags]. apply set_eq. intros f. rewrite !elem_of_union. tauto.
  - rewrite Target_init_not_BOTH, Target_init_register_eq by done.
    cbn [snd ALL_TARGETS].
    rewrite foldl_app, (foldl_flags_extends st _ (ALL_TARGETS st)) by (done || by eexists).
    cbn [foldl].
    rewrite (flags_of_lookup _ _ (init_attributes k m d sc bt fl))
      by (by apply list_lookup_middle).
    rewrite (right_id_L ∅ (∪)). by destruct fl.
Qed.

Lemma render_flags_app l1 l2 :
  render_flags (l1 ++ l2) = render_flags l1 +:+ render_flags l2.
Proof.
  induction l1 as [|flag l1 IH]; [done|].
  cbn [app render_flags foldr]. fold (render_flags (l1 ++ l2)).
  fold (render_flags l1). by rewrite IH, !string_append_assoc.
Qed.

(** X12: the display string of a target shows every flag of the target,
    as [ --flag], in whatever order the set of flags is iterated. *)
Theorem display_string_shows_every_flag set_iter t f :
  (∀ F, set_iter F ≡ₚ elements F) →
  f ∈ flags t →
  substring_of (" --" +:+ f) (Target_str set_iter t).
Proof.
  intros Hiter Hf.
  assert (f ∈ set_iter (flags t)) as Hin
    by (rewrite Hiter; by apply elem_of_elements).
  apply list_elem_of_split in Hin as (l1 & l2 & Hl).
  unfold Target_str. rewrite config_string_render, Hl, render_flags_app.
  exists (mnemonic t +:+ render_flags l1), (render_flags l2).
  cbn [render_flags foldr]. fold (render_flags l2).
  by rewrite !string_append_assoc.
Qed.

Lemma matches_set_scope st a s m F x :
  matches (set_scope a s st) m F x = matches st m F x.
Proof.
  unfold matches. destruct (decide (a = x)) as [->|Hne].
  - rewrite set_scope_lookup. by destruct (objects st !! x) as [[]|].
  - by rewrite set_scope_lookup_ne.
Qed.

Lemma flags_of_set_scope st a s x :
  flags_of (set_scope a s st) x = flags_of st x.
Proof.
  unfold flags_of. destruct (decide (a = x)) as [->|Hne].
  - rewrite set_scope_lookup. by destruct (objects st !! x).
  - by rewrite set_scope_lookup_ne.
Qed.

(** X13: the lookup of a target, the flags in use and the list of targets
    do not depend on the scope of any target: they are the same while a
    delegator has the scope of its delegate overridden. *)
Theorem lookups_ignore_scope set_iter st a s m F :
  get_target set_iter (set_scope a s st) m F = get_target set_iter st m F
  ∧ get_all_possible_flags (set_scope a s st) = get_all_possible_flags st
  ∧ get_all_targets (set_scope a s st) = get_all_targets st.
Proof.
  split; [|split; [|done]].
  - apply get_target_same_matching. cbn [set_scope ALL_TARGETS].
    apply filter_ext_Forall, Forall_forall. intros x _.
    by rewrite matches_set_scope.
  - unfold get_all_possible_flags, get_all_targets. cbn [set_scope ALL_TARGETS].
    generalize (∅ : gset string).
    induction (ALL_TARGETS st) as [|x l IH]; intros acc; [done|].
    simpl. by rewrite IH, flags_of_set_scope.
Qed.

Section Both_scopes.

Context {Path Args B V : Type}.
Variable execute_build_target :
  string → Path → bool → Args → B → result V * B.

Local Abbreviation execute := (execute Path Args B V execute_build_target).

(** X14: the two delegators registered for a [BuildSystemTarget] of scope
    [BOTH] run it once as a local and once as a global target: the local
    one calls the builder with the build target as it is and the flag
    false, the global one with the build target, "all" if it is empty, and
    the flag true. *)
Theorem BOTH_BuildSystemTarget_runs_in_each_scope
    build_target m d bt fl st context args b fuel :
  1 < fuel →
  let r := new_BuildSystemTarget build_target m d BOTH bt fl st in
  let call_local :=
    execute_build_target build_target context false args b in
  let call_global :=
    execute_build_target
      (if decide (build_target = "") then "all" else build_target)
      context true args b in
  execute fuel context args (S r.1) r.2 b
  = Some (match call_local.1 with
          | Return _ => Return ()
          | Raise e => Raise e
          end, r.2, call_local.2)
  ∧ execute fuel context args (S (S r.1)) r.2 b
    = Some (match call_global.1 with
            | Return _ => Return ()
            | Raise e => Raise e
            end, r.2, call_global.2).
Proof.
  intros Hfuel r call_local call_global. subst r call_local call_global.
  unfold new_BuildSystemTarget.
  destruct (Target_init_BOTH_lookups (BuildSystemTarget build_target)
              m d bt fl st) as [Hlocal Hglobal].
  assert ((Target_init (BuildSystemTarget build_target) m d BOTH bt fl st).1
          = length (objects st)) as -> by (by rewrite Target_init_BOTH).
  assert (objects (Target_init (BuildSystemTarget build_target)
                     m d BOTH bt fl st).2 !! length (objects st)
          = Some (init_attributes (BuildSystemTarget build_target)
                    m d BOTH bt fl)) as Hself.
  { rewrite Target_init_BOTH. cbn [snd objects].
    by apply list_lookup_middle. }
  destruct fuel as [|[|fuel]]; [lia..|].
  assert (∀ s, objects (set_scope (length (objects st)) s
                          (Target_init (BuildSystemTarget build_target)
                             m d BOTH bt fl st).2) !! length (objects st)
               = Some (with_scope s
                         (init_attributes (BuildSystemTarget build_target)
                            m d BOTH bt fl))) as Hswapped
    by (intros s; by rewrite set_scope_lookup, Hself).
  split.
  - rewrite (execute_DelegatorTarget _ _ _ _ _ _ _ _ _ Hlocal eq_refl).
    unfold DelegatorTarget_execute. rewrite Hself. cbn [scope].
    rewrite (execute_BuildSystemTarget _ _ _ _ _ _ _ _ _ (Hswapped _) eq_refl).
    rewrite BuildSystemTarget_execute_effective_name. cbn [with_scope scope].
    rewrite (set_scope_restore _ _ _ _ Hself).
    rewrite bool_decide_eq_false_2 by done.
    unfold effective_name. by destruct (decide (build_target = "")) as [->|].
  - rewrite (execute_DelegatorTarget _ _ _ _ _ _ _ _ _ Hglobal eq_refl).
    unfold DelegatorTarget_execute. rewrite Hself. cbn [scope].
    rewrite (execute_BuildSystemTarget _ _ _ _ _ _ _ _ _ (Hswapped _) eq_refl).
    rewrite BuildSystemTarget_execute_effective_name. cbn [with_scope scope].
    rewrite (set_scope_restore _ _ _ _ Hself).
    rewrite bool_decide_eq_true_2 by done.
    unfold effective_name. by destruct (decide (build_target = "")) as [->|].
Qed.

End Both_scopes.

(** ** The further properties on examples *)

Lemma wf_example_flatten : wf example_flatten.
Proof.
  unfold example_flatten.
  repeat (apply wf_Target_init;
          [|apply (bool_decide_unpack _); by vm_compute]).
  apply wf_initial.
Qed.

Lemma steps_example_custom :
  rtc (step string (list string) () () silent_builder)
    example_both example_custom.
Proof. apply rtc_once. apply step_BuildSystemTarget. Qed.

Lemma execute_leaves_store_unchanged_witness :
  match execute string (list string) (list call) ()
          (recording_builder (fails_on "custom")) 5 "ctx" [] 4
          example_composite [] with
  | Some (_, st', _) => st' = example_composite
  | None => False
  end.
Proof.
  destruct (execute string (list string) (list call) ()
              (recording_builder (fails_on "custom")) 5 "ctx" [] 4
              example_composite []) as [[[r st'] b']|] eqn:Hex.
  - eapply execute_leaves_store_unchanged. exact Hex.
  - vm_compute in Hex. discriminate.
Defined.

Lemma execute_completes_witness :
  ∃ r b', ∀ fuel, 1 < fuel →
    execute string (list string) () () silent_builder fuel "ctx" [] 1
      example_both ()
    = Some (r, example_both, b').
Proof.
  apply (execute_completes silent_builder "ctx" [] 1 example_both ()).
  - exact reachable_example_both.
  - apply (bool_decide_unpack _). by vm_compute.
Defined.

Lemma delegation_runs_under_outer_scope_witness :
  execute string (list string) (list call) () (recording_builder never_fails)
    3 "ctx" [] 2 example_nested []
  = Some (Return (), example_nested, [mkCall "" "ctx" false []]).
Proof.
  apply (delegation_runs_under_outer_scope (recording_builder never_fails)
           "ctx" [] [1; 0] 2 0 example_nested []
           (init_attributes (DelegatorTarget 1) "again" "desc" LOCAL None None)
           (init_attributes (BuildSystemTarget "") "build" "desc" GLOBAL None
              None) "").
  - split; [eexists; split; reflexivity|].
    split; [eexists; split; reflexivity|reflexivity].
  - reflexivity.
  - reflexivity.
  - reflexivity.
  - simpl. lia.
Defined.

Lemma nested_composite_flattens_witness :
  execute string (list string) (list call) () (recording_builder never_fails)
    6 "ctx" [] 4 example_flatten []
  = execute string (list string) (list call) () (recording_builder never_fails)
      6 "ctx" [] 5 example_flatten [].
Proof.
  apply (nested_composite_flattens (recording_builder never_fails) "ctx" []
           4 5 3 [] [2] [0; 1] example_flatten []
           (init_attributes (CompositeTarget [3; 2]) "nested" "desc" GLOBAL
              None None)
           (init_attributes (CompositeTarget [0; 1; 2]) "flat" "desc" GLOBAL
              None None)
           (init_attributes (CompositeTarget [0; 1]) "pair" "desc" GLOBAL
              None None)).
  - apply wf_example_flatten.
  - reflexivity.
  - reflexivity.
  - reflexivity.
  - reflexivity.
  - reflexivity.
  - reflexivity.
  - lia.
  - lia.
Defined.

Lemma get_target_sound_witness : 3 ∈ get_all_targets example_custom.
Proof.
  destruct (get_target_sound elements example_custom "install" ∅)
    as [Hreturn _].
  apply (Hreturn 3). by vm_compute.
Defined.

Lemma example_both_no_install F :
  ∀ a, a ∈ get_all_targets example_both →
       ¬ has_identity example_both a "install" F.
Proof.
  intros a Ha (t & Ht & Hm & _). vm_compute in Ha.
  apply elem_of_cons in Ha as [->|Ha]; [by simplify_eq/=|].
  apply list_elem_of_singleton in Ha as ->. by simplify_eq/=.
Qed.

Lemma lookup_finds_new_target_witness :
  get_target elements example_custom "install" ∅ = Return 3
  ∧ objects example_custom !! 3
    = Some (mkTarget "install" "desc" BUILD_NORMAL ∅ GLOBAL
              (BuildSystemTarget "custom")).
Proof.
  apply (lookup_finds_new_target elements (BuildSystemTarget "custom")
           "install" "desc" GLOBAL None None example_both).
  - apply wf_example_both.
  - discriminate.
  - apply example_both_no_install.
Defined.

Lemma lookup_finds_delegators_of_BOTH_witness :
  get_target elements example_both "build" {["unit"]} = Return 1
  ∧ get_target elements example_both "build" ({["-all"]} ∪ {["unit"]})
    = Return 2.
Proof.
  destruct (lookup_finds_delegators_of_BOTH elements (BuildSystemTarget "")
              "build" "desc" None (Some {["unit"]}) initial)
    as (Hlocal & _ & Hglobal & _ & _).
  - apply wf_initial.
  - apply (bool_decide_unpack _). by vm_compute.
  - by intros a Ha%elem_of_nil.
  - by intros a Ha%elem_of_nil.
  - split; [exact Hlocal|exact Hglobal].
Defined.

Lemma BOTH_with_dash_all_conflicts_witness :
  get_target elements
    (Target_init (BuildSystemTarget "") "build" "desc" BOTH None
       (Some {["-all"]}) initial).2 "build" {["-all"]}
  = Raise (AssertionError "Conflicting targets specified in code").
Proof.
  apply (BOTH_with_dash_all_conflicts elements (BuildSystemTarget "")
           "build" "desc" None {["-all"]} initial).
  by apply elem_of_singleton.
Defined.

Lemma construction_keeps_other_lookups_witness :
  get_target elements example_custom "build" {["unit"]}
  = get_target elements example_both "build" {["unit"]}.
Proof.
  apply (construction_keeps_other_lookups elements
           (BuildSystemTarget "custom") "install" "desc" GLOBAL None None
           example_both "build" {["unit"]}).
  - apply wf_example_both.
  - discriminate.
  - discriminate.
Defined.

Lemma get_all_possible_flags_after_construction_witness :
  get_all_possible_flags example_both
  = get_all_possible_flags initial ∪ {["unit"]} ∪ {["-all"]}.
Proof.
  exact (get_all_possible_flags_after_construction (BuildSystemTarget "")
           "build" "desc" BOTH None (Some {["unit"]}) initial wf_initial).
Defined.

Lemma display_string_shows_every_flag_witness :
  substring_of " --jobs"
    (Target_str elements
       (init_attributes (BuildSystemTarget "") "build" "" LOCAL None
          (Some {["jobs"]}))).
Proof.
  apply (display_string_shows_every_flag elements
           (init_attributes (BuildSystemTarget "") "build" "" LOCAL None
              (Some {["jobs"]})) "jobs").
  - done.
  - apply (bool_decide_unpack _). by vm_compute.
Defined.

Lemma BOTH_BuildSystemTarget_runs_in_each_scope_witness :
  execute string (list string) (list call) () (recording_builder never_fails)
    2 "ctx" [] 1 example_both []
  = Some (Return (), example_both, [mkCall "" "ctx" false []])
  ∧ execute string (list string) (list call) () (recording_builder never_fails)
      2 "ctx" [] 2 example_both []
    = Some (Return (), example_both, [mkCall "all" "ctx" true []]).
Proof.
  apply (BOTH_BuildSystemTarget_runs_in_each_scope
           (recording_builder never_fails) "" "build" "desc" None
           (Some {["unit"]}) initial "ctx" [] [] 2).
  lia.
Defined.

Lemma reachable_states_well_formed_witness :
  NoDup (get_all_targets example_both).
Proof.
  apply (reachable_states_well_formed silent_builder example_both).
  exact reachable_example_both.
Defined.

Lemma operations_keep_existing_targets_witness :
  objects example_custom !! 0
  = Some (mkTarget "build" "desc" BUILD_NORMAL {["unit"]} BOTH
            (BuildSystemTarget "")).
Proof.
  apply (operations_keep_existing_targets silent_builder example_both
           example_custom steps_example_custom).
  reflexivity.
Defined.

Lemma registered_only_at_construction_witness :
  0 ∉ get_all_targets example_custom.
Proof.
  apply (registered_only_at_construction silent_builder example_both
           example_custom 0 steps_example_custom).
  - apply (bool_decide_unpack _). by vm_compute.
  - apply (bool_decide_unpack _). by vm_compute.
Defined.

(** ** The scope [BOTH] *)

Section Scope_BOTH.

Context {Path Args B V : Type}.
Variable execute_build_target :
  string → Path → bool → Args → B → result V * B.

Local Abbreviation execute := (execute Path Args B V execute_build_target).
Local Abbreviation step := (step Path Args B V execute_build_target).
Local Abbreviation reachable :=
  (reachable Path Args B V execute_build_target).

Lemma steps_keep_objects st st' :
  rtc step st st' →
  ∀ a t, objects st !! a = Some t → objects st' !! a = Some t.
Proof.
  intros Hsteps.
  eapply (rtc_ind_r
            (λ st', ∀ a t, objects st !! a = Some t → objects st' !! a = Some t)
            st); [| |exact Hsteps]; [done|].
  intros st1 st2 _ Hstep IH a t Ha.
  destruct (step_extends execute_build_target _ _ Hstep) as [Ho _].
  eapply lookup_extends; [done|]. by apply IH.
Qed.

Lemma steps_keep_unregistered st st' a :
  rtc step st st' →
  a < length (objects st) → a ∉ ALL_TARGETS st → a ∉ ALL_TARGETS st'.
Proof.
  intros Hsteps Ha Hnot.
  cut (length (objects st) ≤ length (objects st') ∧ a ∉ ALL_TARGETS st');
    [by intros []|].
  eapply (rtc_ind_r
            (λ st', length (objects st) ≤ length (objects st')
                    ∧ a ∉ ALL_TARGETS st') st); [| |exact Hsteps]; [done|].
  intros st1 st2 _ Hstep [Hlen IH].
  destruct (step_new_entries execute_build_target _ _ Hstep)
    as [(new & -> & Hnew) Hlen'].
  split; [lia|]. rewrite elem_of_app. intros [?|Hin]; [done|].
  rewrite Forall_forall in Hnew. specialize (Hnew _ Hin). lia.
Qed.

(** C7, as the code has it.  Between operations, that is in every state a
    program reaches by constructing and executing targets, every registered
    target has the scope [LOCAL] or [GLOBAL], and every construction and
    every completed call of [execute] keeps it so.  A registered
    [DelegatorTarget] called between operations writes [LOCAL] or [GLOBAL]
    into its delegate, so that this holds too in the store the delegate is
    called on.  A target constructed with the scope [BOTH] is not
    registered, then or after any later operation, and keeps the scope
    [BOTH].  And in any store, also in the middle of a call, a delegator
    runs its delegate with the delegate's scope set to the scope the
    delegator has at that moment, whatever it is, [BOTH] included, every
    other attribute and object being as before, and leaves the store as it
    found it. *)
Theorem registered_scope_is_LOCAL_or_GLOBAL st :
  reachable st →
  (∀ a t, a ∈ get_all_targets st → objects st !! a = Some t →
          scope t = LOCAL ∨ scope t = GLOBAL)
  ∧ (∀ st', step st st' →
       ∀ a t, a ∈ get_all_targets st' → objects st' !! a = Some t →
              scope t = LOCAL ∨ scope t = GLOBAL)
  ∧ (∀ self t delegate,
       self ∈ get_all_targets st → objects st !! self = Some t →
       kind t = DelegatorTarget delegate →
       ∀ a t', a ∈ get_all_targets st →
               objects (set_scope delegate (scope t) st) !! a = Some t' →
               scope t' = LOCAL ∨ scope t' = GLOBAL)
  ∧ (∀ k m d bt fl st',
       rtc step (Target_init k m d BOTH bt fl st).2 st' →
       ((Target_init k m d BOTH bt fl st).1 ∉ get_all_targets st')
       ∧ ∃ t, objects st' !! (Target_init k m d BOTH bt fl st).1 = Some t
              ∧ scope t = BOTH)
  ∧ (∀ st0 self t delegate d fuel context args b r st3 b',
       objects st0 !! self = Some t →
       kind t = DelegatorTarget delegate →
       objects st0 !! delegate = Some d →
       execute (S fuel) context args self st0 b = Some (r, st3, b') →
       st3 = st0
       ∧ ∃ st1,
           objects st1 !! delegate
           = Some (mkTarget (mnemonic d) (desc d) (build_type d) (flags d)
                     (scope t) (kind d))
           ∧ (∀ a, a ≠ delegate → objects st1 !! a = objects st0 !! a)
           ∧ get_all_targets st1 = get_all_targets st0
           ∧ execute fuel context args delegate st1 b = Some (r, st1, b')).
Proof.
  intros Hreach.
  destruct (registered_scopes_between_operations execute_build_target st Hreach)
    as [Hrest Hswap].
  split; [done|]. split; [|split; [done|split]].
  - intros st' Hstep.
    apply (registered_scopes_between_operations execute_build_target st').
    by eapply rtc_r.
  - intros k m d bt fl st' Hsteps.
    destruct (reachable_wf execute_build_target st Hreach) as (_ & Hreg & _).
    pose proof (Target_init_self_lookup k m d BOTH bt fl st) as Hself.
    assert ((Target_init k m d BOTH bt fl st).1 = length (objects st)) as Hr
      by (by rewrite Target_init_BOTH).
    split.
    + unfold get_all_targets.
      eapply steps_keep_unregistered; [exact Hsteps| |].
      * by eapply lookup_lt_Some.
      * rewrite Hr, Target_init_BOTH. cbn [snd ALL_TARGETS].
        rewrite elem_of_app, !elem_of_cons, elem_of_nil.
        rewrite Forall_forall in Hreg.
        intros [Hin|[?|[?|[]]]]; [specialize (Hreg _ Hin)|..]; lia.
    + exists (init_attributes k m d BOTH bt fl). split; [|done].
      by eapply steps_keep_objects.
  - intros st0 self t delegate d fuel context args b r st3 b' Ht Hk Hd Hex.
    pose proof (execute_preserves_state _ _ _ _ _ _ _ _ _ _ Hex) as ->.
    split; [done|].
    simpl in Hex. rewrite Ht, Hk in Hex. unfold DelegatorTarget_execute in Hex.
    rewrite Hd in Hex.
    destruct (execute fuel context args delegate
                (set_scope delegate (scope t) st0) b)
      as [[[r1 st2] b1]|] eqn:Hdel; [|done].
    pose proof (execute_preserves_state _ _ _ _ _ _ _ _ _ _ Hdel) as ->.
    assert (r1 = r ∧ b1 = b') as [-> ->] by (split; congruence).
    exists (set_scope delegate (scope t) st0).
    split; [by rewrite set_scope_lookup, Hd|].
    split; [intros a Ha; by apply set_scope_lookup_ne|done].
Qed.

End Scope_BOTH.

Lemma registered_scope_is_LOCAL_or_GLOBAL_witness :
  ∃ t, objects example_both !! 2 = Some t
       ∧ (scope t = LOCAL ∨ scope t = GLOBAL).
Proof.
  eexists. split; [reflexivity|].
  destruct (registered_scope_is_LOCAL_or_GLOBAL silent_builder example_both
              reachable_example_both) as [Hrest _].
  apply (Hrest 2).
  - apply (bool_decide_unpack _). by vm_compute.
  - reflexivity.
Defined.
